(** * gxutils [mem_utils.hpp]: the shared, reference-counted byte buffer
      [mem_buffer] and its typed cursor [mem_stream].

    The C++ objects are embedded as follows.

    - [size_t] values are integers in [Z] taken modulo [2^64]; every
      addition, subtraction and multiplication of the source is followed
      by [wrap].  The [int] reference counter is an integer in [Z]; leaving
      the range of [int] is undefined behaviour.
    - A block of raw memory is a [list byte] whose length is the size that
      was requested from the allocator.  [memcpy] and [memset] are defined
      only when their ranges lie inside their blocks.
    - The template parameter [Allocator] is the class [Allocator]: a request
      is answered by a block of that size, of any content, or by [nullptr].
    - The members that every copy of a handle aliases ([*ptr], [capacity],
      [*ref_counter], [mutex]) form one record, [cell]; the members that
      each handle owns ([pos], [single_expand_size] and the two policy
      flags) form the record [mem_buffer.t].
    - [ptr] points to a block of its own, which the constructor requests
      with [capacity] bytes and which holds the pointer [*ptr].  The
      constructor stores that pointer, which needs [sizeof(char * )] bytes;
      from then on the block only hands the pointer on, and the cell records
      the block [*ptr] alone.
    - A [std::mutex] is the flag that says whether it is held.
    - A member function is a computation in the monad [M]: it is run on the
      shared cell and either returns a value and the new cell, throws
      [mem_exception], or has undefined behaviour. *)

From Stdlib Require Import ZArith Lia Bool.
From Stdlib.Strings Require Import Byte.
From stdpp Require Import base list.

Open Scope Z_scope.

(** ** Machine integers *)

Definition size_modulus : Z := 2 ^ 64.

(** Arithmetic on [size_t] is modulo [2^64]. *)
Definition wrap (z : Z) : Z := z mod size_modulus.

Definition is_size_t (z : Z) : Prop := 0 <= z < size_modulus.

Definition INT_MAX : Z := 2147483647.
Definition INT_MIN : Z := -2147483648.

(** [++i] and [--i] on an [int]: undefined when the result is not an [int]. *)
Definition int_incr (i : Z) : option Z :=
  if i <? INT_MAX then Some (i + 1) else None.

Definition int_decr (i : Z) : option Z :=
  if INT_MIN <? i then Some (i - 1) else None.

(** ** Raw memory *)

Definition block : Type := list byte.

Definition size (b : block) : Z := Z.of_nat (length b).

(** The [n] bytes at [b + off] lie inside [b]. *)
Definition in_block (b : block) (off n : Z) : bool :=
  (0 <=? off) && (0 <=? n) && (off + n <=? size b).

(** The [n] bytes at [b + off]. *)
Definition slice (b : block) (off n : Z) : block :=
  take (Z.to_nat n) (drop (Z.to_nat off) b).

(** [memcpy(dst + doff, src + soff, n)]; [None] is an access outside a block. *)
Definition memcpy (dst : block) (doff : Z) (src : block) (soff n : Z)
  : option block :=
  if in_block dst doff n && in_block src soff n then
    Some (take (Z.to_nat doff) dst ++ slice src soff n
            ++ drop (Z.to_nat (doff + n)) dst)
  else None.

(** [n] zero bytes. *)
Definition zeroed (n : Z) : block := replicate (Z.to_nat n) x00.

(** [memset(p, x, n)] *)
Definition memset (p : block) (x : byte) (n : Z) : option block :=
  if in_block p 0 n then
    Some (replicate (Z.to_nat n) x ++ drop (Z.to_nat n) p)
  else None.

(** ** The allocator *)

(** [static void *alloc(size_t size)]: a block of [size] bytes, or [None]
    for [nullptr].  [static void release(void *ptr, size_t size)] returns a
    block; what is left of a released block is recorded in the cell. *)
Class Allocator : Type := {
  alloc : Z -> option block;
  alloc_size n p : alloc n = Some p -> size p = n
}.

(** [class mem_heap_allocator], on a heap that is not exhausted: [malloc]
    hands out a block of the size asked for. *)
Definition malloc (n : Z) : option block :=
  if 0 <=? n then Some (replicate (Z.to_nat n) xcd) else None.

#[global] Instance mem_heap_allocator : Allocator.
Proof.
  refine {| alloc := malloc |}.
  intros n p. unfold malloc.
  destruct (Z.leb_spec 0 n) as [Hn|Hn]; [|discriminate].
  intros [= <-]. unfold size. rewrite length_replicate. lia.
Defined.

(** ** The shared cell *)

Record cell : Type := Cell {
  storage : block;      (* the block [*ptr] *)
  capacity : Z;         (* [size_t& capacity] *)
  ref_counter : Z;      (* [int *ref_counter] *)
  locked : bool;        (* [std::mutex& mutex] is held *)
  alive : bool;         (* [*ptr], [ptr] and [mutex] have not been released *)
  releases : nat        (* how often the destructor released them *)
}.

Definition set_storage (s : block) (c : cell) : cell :=
  Cell s (capacity c) (ref_counter c) (locked c) (alive c) (releases c).
Definition set_capacity (n : Z) (c : cell) : cell :=
  Cell (storage c) n (ref_counter c) (locked c) (alive c) (releases c).
Definition set_ref_counter (n : Z) (c : cell) : cell :=
  Cell (storage c) (capacity c) n (locked c) (alive c) (releases c).
Definition set_locked (b : bool) (c : cell) : cell :=
  Cell (storage c) (capacity c) (ref_counter c) b (alive c) (releases c).

(** The last handle is gone: [Allocator::release( *ptr, capacity)],
    [Allocator::release(ptr, ...)] and [delete &mutex]. *)
Definition release_cell (c : cell) : cell :=
  Cell (storage c) (capacity c) (ref_counter c) (locked c) false
       (S (releases c)).

(** [new std::mutex], the default argument of the constructor: a mutex
    that nobody holds. *)
Definition new_mutex : bool := false.

(** [sizeof(char * )], where [size_t] has 64 bits. *)
Definition sizeof_pointer : Z := 8.

(** The cell that the constructor sets up for a buffer of [n] bytes with
    the default mutex. *)
Definition new_cell (n : Z) : cell := Cell (zeroed n) n 1 false true 0.

(** A buffer of capacity 8 that holds the bytes 1 to 8. *)
Definition counting_cell : cell :=
  Cell [x01; x02; x03; x04; x05; x06; x07; x08] 8 1 false true 0.

(** ** Outcomes of a member function *)

Inductive outcome (A : Type) : Type :=
| Ret (a : A) (c : cell)     (* normal return *)
| Throw (c : cell)           (* [throw mem_exception(...)] *)
| Undefined.                 (* undefined behaviour *)
Arguments Ret {A} a c.
Arguments Throw {A} c.
Arguments Undefined {A}.

Definition M (A : Type) : Type := cell -> outcome A.

Definition ret {A} (a : A) : M A := fun c => Ret a c.

Definition bind {A B} (m : M A) (f : A -> M B) : M B :=
  fun c => match m c with
           | Ret a c' => f a c'
           | Throw c' => Throw c'
           | Undefined => Undefined
           end.

Declare Scope cpp_scope.
Delimit Scope cpp_scope with cpp.
Notation "x <- m ;; k" := (bind m (fun x => k))
  (at level 100, m at next level, right associativity) : cpp_scope.
Notation "m ;;; k" := (bind m (fun _ => k))
  (at level 100, right associativity) : cpp_scope.
Open Scope cpp_scope.

Definition get_cell : M cell := fun c => Ret c c.
Definition put_cell (c : cell) : M unit := fun _ => Ret tt c.
Definition throw {A} : M A := fun c => Throw c.
Definition undefined {A} : M A := fun _ => Undefined.

Definition defined {A} (o : option A) : M A :=
  match o with Some a => ret a | None => undefined end.

(** [mutex.lock()]: taking a mutex that is held, or that was deleted, is
    undefined in a single thread of control. *)
Definition mutex_lock : M unit := fun c =>
  if alive c && negb (locked c) then Ret tt (set_locked true c) else Undefined.

Definition mutex_unlock : M unit := fun c =>
  if alive c && locked c then Ret tt (set_locked false c) else Undefined.

(** [memcpy(dst, *ptr + off, len)] *)
Definition load (dst : block) (len off : Z) : M block :=
  c <- get_cell ;;
  if alive c then defined (memcpy dst 0 (storage c) off len) else undefined.

(** [memcpy( *ptr + off, src, len)] *)
Definition store (src : block) (len off : Z) : M unit :=
  c <- get_cell ;;
  if alive c then
    s <- defined (memcpy (storage c) off src 0 len) ;;
    put_cell (set_storage s c)
  else undefined.

(** ** [class mem_buffer] *)

Module mem_buffer.

Record t : Type := Handle {
  pos : Z;
  single_expand_size : Z;
  enable_auto_release : bool;
  enable_auto_expand : bool
}.

Definition set_pos (p : Z) (h : t) : t :=
  Handle p (single_expand_size h) (enable_auto_release h) (enable_auto_expand h).

(** How a call of the constructor ends. *)
Inductive construction : Type :=
| Built (h : t) (c : cell)   (* the handle, and the cell it shares *)
| Thrown                     (* [throw mem_exception(...)] *)
| Unspecified.               (* undefined behaviour *)

Section with_allocator.
Context `{Allocator}.

(** The handle that the constructor builds. *)
Definition initial : t := Handle 0 (16 * 1024) true true.

(** [explicit mem_buffer(size_t capacity, std::mutex *mutex = new std::mutex)].
    [mutex] says whether the mutex that is handed in is held; the
    constructor does not touch it, and the buffer owns it from then on (the
    last destructor deletes it).  The block [ptr] is requested with
    [capacity] bytes, and [*ptr = ...] stores a pointer at its start: an
    access outside the block when [capacity < sizeof(char * )].  The right
    side of that assignment, the second request, is evaluated before the
    store. *)
Definition construct (capacity : Z) (mutex : bool) : construction :=
  match alloc capacity with                       (* [ptr] *)
  | None => Thrown
  | Some ptr =>
      let p := alloc capacity in
      if in_block ptr 0 sizeof_pointer then       (* [*ptr = ...] *)
        match p with
        | None => Thrown
        | Some p =>
            match memset p x00 capacity with
            | Some s => Built initial (Cell s capacity 1 mutex true 0)
            | None => Unspecified
            end
        end
      else Unspecified
  end.

(** [mem_buffer(mem_buffer const& buffer)]; [single_expand_size] is not in
    the initialiser list and takes its default. *)
Definition copy (buffer : t) : M t :=
  mutex_lock ;;;
  c <- get_cell ;;
  r <- defined (int_incr (ref_counter c)) ;;
  put_cell (set_ref_counter r c) ;;;
  mutex_unlock ;;;
  ret (Handle (pos buffer) (16 * 1024) (enable_auto_release buffer)
              (enable_auto_expand buffer)).

(** [bool read(char *dst, size_t const len, size_t const off) const] *)
Definition read_at (h : t) (dst : block) (len off : Z) : M (bool * block) :=
  c <- get_cell ;;
  if capacity c <? wrap (len + off) then ret (false, dst)
  else
    mutex_lock ;;;
    dst' <- load dst len off ;;
    mutex_unlock ;;;
    ret (true, dst').

(** [bool read(char *dst, size_t const len)] *)
Definition read (h : t) (dst : block) (len : Z) : M (bool * block * t) :=
  r <- read_at h dst len (pos h) ;;
  ret (r.1, r.2, set_pos (wrap (pos h + len)) h).

(** [bool expand()] *)
Definition expand (h : t) : M bool :=
  if enable_auto_release h && enable_auto_expand h then
    c <- get_cell ;;
    let new_capacity := wrap (capacity c + single_expand_size h) in
    match alloc new_capacity with
    | None => undefined                 (* [memset(nullptr, 0, ...)] *)
    | Some new_ptr =>
        new_ptr <- defined (memset new_ptr x00 new_capacity) ;;
        if alive c then
          new_ptr <- defined (memcpy new_ptr 0 (storage c) 0 (capacity c)) ;;
          put_cell (set_capacity new_capacity (set_storage new_ptr c)) ;;;
          ret true
        else undefined
    end
  else ret false.

(** [bool write(const char *src, size_t const len, size_t const off)] *)
Definition write_at (h : t) (src : block) (len off : Z) : M bool :=
  mutex_lock ;;;
  c <- get_cell ;;
  (if capacity c <? wrap (len + off) then
     if enable_auto_expand h then expand h ;;; ret tt else throw
   else ret tt) ;;;
  store src len off ;;;
  mutex_unlock ;;;
  ret true.

(** [bool write(const char *src, const size_t len)] *)
Definition write (h : t) (src : block) (len : Z) : M (bool * t) :=
  r <- write_at h src len (pos h) ;;
  ret (r, set_pos (wrap (pos h + len)) h).

(** [size_t auto_expand_size() const] and [void auto_expand_size(size_t)] *)
Definition auto_expand_size (h : t) : Z := single_expand_size h.

Definition set_auto_expand_size (n : Z) (h : t) : t :=
  Handle (pos h) n (enable_auto_release h) (enable_auto_expand h).

(** [size_t position() const], [void position(size_t)], [void rewind()] *)
Definition position (h : t) : Z := pos h.
Definition set_position (p : Z) (h : t) : t := set_pos p h.
Definition rewind (h : t) : t := set_pos 0 h.

(** [~mem_buffer()] *)
Definition destroy (h : t) : M unit :=
  mutex_lock ;;;
  c <- get_cell ;;
  r <- defined (int_decr (ref_counter c)) ;;
  put_cell (set_ref_counter r c) ;;;
  mutex_unlock ;;;
  c <- get_cell ;;
  if (ref_counter c =? 0) && enable_auto_release h then
    put_cell (release_cell c)
  else ret tt.

(** The typed overloads [write(T const&)], [read(T&)] and [Rt read()]: a
    value of type [T] is its object representation, a block of [sizeof(T)]
    bytes; [v0] is the content of the uninitialised local [Rt v]. *)
Definition write_value (h : t) (v : block) : M (bool * t) :=
  write h v (size v).

Definition read_value (h : t) (v : block) : M (bool * block * t) :=
  read h v (size v).

Definition read_return (h : t) (v0 : block) : M (block * t) :=
  r <- read_value h v0 ;;
  ret (r.1.2, r.2).

End with_allocator.

End mem_buffer.

(** ** [class mem_stream] *)

Module mem_stream.

Record t : Type := Stream {
  pos : Z;
  buffer : mem_buffer.t;
  eof_bit : bool;
  step : Z                (* [sizeof(T)] *)
}.

Definition set_pos (p : Z) (s : t) : t :=
  Stream p (buffer s) (eof_bit s) (step s).
Definition set_eof_bit (b : bool) (s : t) : t :=
  Stream (pos s) (buffer s) b (step s).

Section with_allocator.
Context `{Allocator}.

(** [explicit mem_stream(Buffer& buffer)], for an element type of
    [sizeof_T] bytes; the member [buffer] is copy-constructed. *)
Definition construct (sizeof_T : Z) (b : mem_buffer.t) : M t :=
  b' <- mem_buffer.copy b ;;
  ret (Stream 0 b' false sizeof_T).

(** [mem_stream(mem_stream const&) = default] *)
Definition copy (s : t) : M t :=
  b' <- mem_buffer.copy (buffer s) ;;
  ret (Stream (pos s) b' (eof_bit s) (step s)).

(** [bool get(T& t)]; [v] is the object representation of [t] before the
    call. *)
Definition get (s : t) (v : block) : M (bool * block * t) :=
  r <- mem_buffer.read_at (buffer s) v (step s) (pos s) ;;
  let s1 := if r.1 then set_pos (wrap (pos s + step s)) s else s in
  c <- get_cell ;;
  let s2 := if capacity c <=? pos s1 then set_eof_bit true s1 else s1 in
  ret (r.1, r.2, s2).

(** [T get()]; [v0] is the content of the uninitialised local [T t]. *)
Definition get_value (s : t) (v0 : block) : M (block * t) :=
  r <- get s v0 ;;
  ret (r.1.2, r.2).

(** [T peek()] *)
Definition peek (s : t) (v0 : block) : M (block * t) :=
  r <- get_value s v0 ;;
  ret (r.1, set_pos (wrap (pos r.2 - 1)) r.2).

(** [bool put(T const& t)] *)
Definition put (s : t) (v : block) : M (bool * t) :=
  r <- mem_buffer.write_at (buffer s) v (step s) (pos s) ;;
  ret (r, set_pos (wrap (pos s + step s)) s).

(** [void reset()] *)
Definition reset (s : t) : t := set_eof_bit false (set_pos 0 s).

(** [void back()] and [void back(size_t len)] *)
Definition back_by (n : Z) (s : t) : M t :=
  let s1 := set_pos (wrap (pos s - n)) s in
  c <- get_cell ;;
  ret (if pos s1 <? capacity c then set_eof_bit false s1 else s1).

Definition back (s : t) : M t := back_by (step s) s.
Definition back_n (s : t) (len : Z) : M t := back_by (wrap (step s * len)) s.

(** [void forward()] and [void forward(size_t len)] *)
Definition forward_by (n : Z) (s : t) : M t :=
  let s1 := set_pos (wrap (pos s + n)) s in
  c <- get_cell ;;
  ret (if capacity c <=? pos s1 then set_eof_bit true s1 else s1).

Definition forward (s : t) : M t := forward_by (step s) s.
Definition forward_n (s : t) (len : Z) : M t :=
  forward_by (wrap (step s * len)) s.

(** [T peek(size_t len)] *)
Definition peek_n (s : t) (len : Z) (v0 : block) : M (block * t) :=
  s1 <- forward_n s (wrap (len - 1)) ;;
  r <- get_value s1 v0 ;;
  s2 <- back_n r.2 len ;;
  ret (r.1, s2).

(** [bool eof() const] and [bool eof(size_t s)] *)
Definition eof (s : t) : bool := eof_bit s.

Definition eof_ahead (s : t) (n : Z) : M bool :=
  c <- get_cell ;;
  ret (capacity c <=? wrap (pos s + n)).

End with_allocator.

End mem_stream.

(** [get_byte_stream()], [get_char_stream()], [get_char8_stream()],
    [get_char16_stream()] and [get_char32_stream()] *)
Definition get_byte_stream (h : mem_buffer.t) : M mem_stream.t :=
  mem_stream.construct 1 h.
Definition get_char_stream (h : mem_buffer.t) : M mem_stream.t :=
  mem_stream.construct 1 h.
Definition get_char8_stream (h : mem_buffer.t) : M mem_stream.t :=
  mem_stream.construct 1 h.
Definition get_char16_stream (h : mem_buffer.t) : M mem_stream.t :=
  mem_stream.construct 2 h.
Definition get_char32_stream (h : mem_buffer.t) : M mem_stream.t :=
  mem_stream.construct 4 h.

(** ** Well-formed cells *)

(** The block [*ptr] holds [capacity] bytes. *)
Definition sized (c : cell) : Prop :=
  size (storage c) = capacity c /\ is_size_t (capacity c).

(** A cell between two member calls: not released, mutex free. *)
Definition wf_cell (c : cell) : Prop :=
  alive c = true /\ locked c = false /\ sized c.

(** ** Sequences of copies and destructions *)

(** The handle that the copy constructor builds from [h]. *)
Definition copy_of (h : mem_buffer.t) : mem_buffer.t :=
  mem_buffer.Handle (mem_buffer.pos h) (16 * 1024)
    (mem_buffer.enable_auto_release h) (mem_buffer.enable_auto_expand h).

(** [n] handles copy-constructed from [h], one after the other. *)
Fixpoint copies (n : nat) (h : mem_buffer.t) : M (list mem_buffer.t) :=
  match n with
  | O => ret []
  | S n' =>
      h' <- mem_buffer.copy h ;;
      hs <- copies n' h ;;
      ret (h' :: hs)
  end.

(** The destructor runs on each handle of [hs], from the head on. *)
Fixpoint destroy_all (hs : list mem_buffer.t) : M unit :=
  match hs with
  | [] => ret tt
  | h :: hs' => mem_buffer.destroy h ;;; destroy_all hs'
  end.

(** ** A buffer and the handles that alias it *)

Module world.

(** The public member functions that act on one handle.  The member
    functions of a [mem_stream] act on its own handle through [read_at] and
    [write_at]. *)
Inductive op : Type :=
| read_at (dst : block) (len off : Z)
| read (dst : block) (len : Z)
| write_at (src : block) (len off : Z)
| write (src : block) (len : Z)
| write_value (v : block)
| read_value (v : block)
| set_auto_expand_size (n : Z)
| set_position (p : Z)
| rewind
| expand.

Section with_allocator.
Context `{Allocator}.

(** The handle after the call. *)
Definition run (o : op) (h : mem_buffer.t) : M mem_buffer.t :=
  match o with
  | read_at dst len off => mem_buffer.read_at h dst len off ;;; ret h
  | read dst len => r <- mem_buffer.read h dst len ;; ret r.2
  | write_at src len off => mem_buffer.write_at h src len off ;;; ret h
  | write src len => r <- mem_buffer.write h src len ;; ret r.2
  | write_value v => r <- mem_buffer.write_value h v ;; ret r.2
  | read_value v => r <- mem_buffer.read_value h v ;; ret r.2
  | set_auto_expand_size n => ret (mem_buffer.set_auto_expand_size n h)
  | set_position p => ret (mem_buffer.set_position p h)
  | rewind => ret (mem_buffer.rewind h)
  | expand => mem_buffer.expand h ;;; ret h
  end.

Record t : Type := World {
  shared : cell;
  handles : list mem_buffer.t       (* the handles not yet destroyed *)
}.

Inductive step : t -> t -> Prop :=
| step_call i o h h' c' w :
    handles w !! i = Some h ->
    run o h (shared w) = Ret h' c' ->
    step w (World c' (<[i:=h']> (handles w)))
| step_throw i o h c' w :
    handles w !! i = Some h ->
    run o h (shared w) = Throw c' ->
    step w (World c' (handles w))
| step_copy i h h' c' w :
    handles w !! i = Some h ->
    mem_buffer.copy h (shared w) = Ret h' c' ->
    step w (World c' (handles w ++ [h']))
| step_destroy i h c' w :
    handles w !! i = Some h ->
    mem_buffer.destroy h (shared w) = Ret tt c' ->
    step w (World c' (delete i (handles w))).

(** The states of a buffer that was built with a mutex nobody holds, as
    [new std::mutex] is. *)
Inductive reachable : t -> Prop :=
| reachable_construct n h c :
    0 < n < size_modulus ->
    mem_buffer.construct n new_mutex = mem_buffer.Built h c ->
    reachable (World c [h])
| reachable_step w w' :
    reachable w -> step w w' -> reachable w'.

End with_allocator.

End world.

(** Both policy flags of a handle are set. *)
Definition policies_on (h : mem_buffer.t) : Prop :=
  mem_buffer.enable_auto_release h = true /\
  mem_buffer.enable_auto_expand h = true.

(** The end marker of a view agrees with its position. *)
Definition eof_in_sync (s : mem_stream.t) (c : cell) : Prop :=
  mem_stream.eof_bit s = (capacity c <=? mem_stream.pos s).

(** A member call that returns leaves everything but the block and its
    capacity as it found it. *)
Definition same_bookkeeping (c c' : cell) : Prop :=
  ref_counter c' = ref_counter c /\ locked c' = locked c /\
  alive c' = alive c /\ releases c' = releases c.

(** What holds of a buffer and its handles in every reachable state: the
    counter is the number of live handles; the cell is released exactly
    when no handle is left, and then it was released once; and while a
    handle is left the cell is well formed. *)
Definition world_invariant (w : world.t) : Prop :=
  ref_counter (world.shared w) = Z.of_nat (length (world.handles w)) /\
  Forall policies_on (world.handles w) /\
  match world.handles w with
  | [] => alive (world.shared w) = false /\ releases (world.shared w) = 1%nat
  | _ :: _ => wf_cell (world.shared w) /\ releases (world.shared w) = 0%nat
  end.

(** ** Chained stream operators *)


(** [mem_stream& operator<<(T const& t)]: [put(t)], its result dropped. *)
Definition operator_put `{Allocator} (s : mem_stream.t) (v : block)
  : M mem_stream.t :=
  r <- mem_stream.put s v ;;
  ret r.2.

(** The chain [s << v1 << v2 << ...]. *)
Fixpoint operator_put_all `{Allocator} (s : mem_stream.t) (vs : list block)
  : M mem_stream.t :=
  match vs with
  | [] => ret s
  | v :: vs' => s' <- operator_put s v ;; operator_put_all s' vs'
  end.

(** * Properties *)

(** ** Arithmetic and memory lemmas *)

Lemma wrap_small z : is_size_t z -> wrap z = z.
Proof. unfold is_size_t, wrap. intros H. apply Z.mod_small. exact H. Qed.

Lemma wrap_is_size_t z : is_size_t (wrap z).
Proof.
  unfold is_size_t, wrap, size_modulus.
  apply Z.mod_pos_bound. reflexivity.
Qed.

Lemma size_nonneg b : 0 <= size b.
Proof. unfold size. lia. Qed.

Lemma size_app (a b : block) : size (a ++ b) = size a + size b.
Proof. unfold size. rewrite length_app. lia. Qed.

Lemma size_take n (b : block) : 0 <= n <= size b -> size (take (Z.to_nat n) b) = n.
Proof. unfold size. intros H. rewrite length_take. lia. Qed.

Lemma size_drop n (b : block) : 0 <= n <= size b -> size (drop (Z.to_nat n) b) = size b - n.
Proof. unfold size. intros H. rewrite length_drop. lia. Qed.

Lemma size_zeroed n : 0 <= n -> size (zeroed n) = n.
Proof. unfold size, zeroed. intros H. rewrite length_replicate. lia. Qed.

Lemma size_slice (b : block) off n :
  0 <= off -> 0 <= n -> off + n <= size b -> size (slice b off n) = n.
Proof.
  intros Ho Hn Hb. unfold slice, size in *.
  rewrite length_take, length_drop. lia.
Qed.

Lemma in_block_true b off n :
  0 <= off -> 0 <= n -> off + n <= size b -> in_block b off n = true.
Proof.
  intros. unfold in_block.
  rewrite !andb_true_iff, !Z.leb_le. auto.
Qed.

Lemma in_block_spec b off n :
  in_block b off n = true <-> 0 <= off /\ 0 <= n /\ off + n <= size b.
Proof.
  unfold in_block. rewrite !andb_true_iff, !Z.leb_le. tauto.
Qed.

Lemma memcpy_defined dst doff src soff n :
  0 <= doff -> 0 <= soff -> 0 <= n ->
  doff + n <= size dst -> soff + n <= size src ->
  memcpy dst doff src soff n
  = Some (take (Z.to_nat doff) dst ++ slice src soff n
            ++ drop (Z.to_nat (doff + n)) dst).
Proof.
  intros. unfold memcpy.
  rewrite !in_block_true by assumption. reflexivity.
Qed.

Lemma memcpy_outside_dst dst doff src soff n :
  size dst < doff + n -> memcpy dst doff src soff n = None.
Proof.
  intros H. unfold memcpy.
  destruct (in_block dst doff n) eqn:E; [|reflexivity].
  apply in_block_spec in E. lia.
Qed.

Lemma memcpy_outside_src dst doff src soff n :
  size src < soff + n -> memcpy dst doff src soff n = None.
Proof.
  intros H. unfold memcpy.
  destruct (in_block src soff n) eqn:E; [|by rewrite andb_false_r].
  apply in_block_spec in E. lia.
Qed.

Lemma size_memcpy dst doff src soff n r :
  memcpy dst doff src soff n = Some r -> size r = size dst.
Proof.
  unfold memcpy. destruct (in_block dst doff n) eqn:Ed; [|discriminate].
  destruct (in_block src soff n) eqn:Es; [|discriminate].
  apply in_block_spec in Ed, Es. simpl. intros [= <-].
  rewrite !size_app, size_slice, size_take, size_drop by lia. lia.
Qed.

(** The bytes just stored are the bytes found at the same place. *)
Lemma slice_stored (st src : block) off n :
  0 <= off -> 0 <= n -> off + n <= size st -> n <= size src ->
  slice (take (Z.to_nat off) st ++ slice src 0 n
           ++ drop (Z.to_nat (off + n)) st) off n
  = slice src 0 n.
Proof.
  intros Ho Hn Hst Hsrc. unfold slice at 1.
  rewrite drop_app_length'.
  2:{ rewrite length_take. unfold size in *. lia. }
  rewrite take_app_length'; [reflexivity|].
  pose proof (size_slice src 0 n ltac:(lia) Hn ltac:(lia)) as E.
  unfold size in E. lia.
Qed.

(** ** The byte-range operations on a well-formed cell *)

Ltac open_cell c :=
  destruct c as [st cap rc lk al rel];
  unfold wf_cell, sized, set_storage, set_capacity, set_ref_counter,
    set_locked, release_cell in *;
  simpl in *.

(** Closed side conditions are settled by evaluation. *)
Ltac by_computation :=
  unfold wf_cell, sized, is_size_t, policies_on;
  vm_compute; repeat split; first [reflexivity | discriminate].

Lemma read_at_rejected h dst len off c :
  capacity c < wrap (len + off) ->
  mem_buffer.read_at h dst len off c = Ret (false, dst) c.
Proof.
  intros H. unfold mem_buffer.read_at, bind, get_cell.
  apply Z.ltb_lt in H. rewrite H. reflexivity.
Qed.

Lemma read_at_in_range h dst len off c :
  wf_cell c -> 0 <= off -> 0 <= len -> off + len <= capacity c ->
  len <= size dst ->
  mem_buffer.read_at h dst len off c
  = Ret (true, slice (storage c) off len ++ drop (Z.to_nat len) dst) c.
Proof.
  intros (Hal & Hlk & Hsz & Hcap) Ho Hl Hr Hd.
  open_cell c. subst al lk.
  unfold mem_buffer.read_at, bind, get_cell. simpl.
  rewrite wrap_small by (unfold is_size_t in *; lia).
  replace (cap <? len + off) with false by (symmetry; apply Z.ltb_ge; lia).
  unfold mutex_lock, load, bind, get_cell. simpl.
  rewrite memcpy_defined by lia. simpl.
  reflexivity.
Qed.

Lemma write_at_in_range {Al : Allocator} h src len off c :
  wf_cell c -> 0 <= off -> 0 <= len -> off + len <= capacity c ->
  len <= size src ->
  mem_buffer.write_at h src len off c
  = Ret true (set_storage (take (Z.to_nat off) (storage c) ++ slice src 0 len
                             ++ drop (Z.to_nat (off + len)) (storage c)) c).
Proof.
  intros (Hal & Hlk & Hsz & Hcap) Ho Hl Hr Hd.
  open_cell c. subst al lk.
  unfold mem_buffer.write_at, bind, get_cell, mutex_lock. simpl.
  rewrite wrap_small by (unfold is_size_t in *; lia).
  replace (cap <? len + off) with false by (symmetry; apply Z.ltb_ge; lia).
  unfold store, bind, get_cell, ret. simpl.
  rewrite memcpy_defined by lia. simpl.
  reflexivity.
Qed.

Lemma wf_cell_set_storage s c :
  wf_cell c -> size s = size (storage c) -> wf_cell (set_storage s c).
Proof.
  intros (Hal & Hlk & Hsz & Hcap) Hs. open_cell c.
  repeat split; try assumption; try apply Hcap; lia.
Qed.

(** C1.  On a live buffer whose block holds [capacity] bytes, writing the
    [len] bytes of [src] at an offset with [off + len <= capacity] returns
    true, and reading [len] bytes back from the same offset, through any
    handle of the buffer, returns true and delivers exactly those bytes (the
    rest of the destination is untouched). *)
Theorem write_then_read_roundtrip {Al : Allocator}
    (h h' : mem_buffer.t) (c : cell) (src dst : block) (len off : Z) :
  wf_cell c -> 0 <= off -> 0 <= len -> off + len <= capacity c ->
  len <= size src -> len <= size dst ->
  exists c1,
    mem_buffer.write_at h src len off c = Ret true c1 /\
    mem_buffer.read_at h' dst len off c1
    = Ret (true, slice src 0 len ++ drop (Z.to_nat len) dst) c1.
Proof.
  intros Hwf Ho Hl Hr Hs Hd.
  eexists. split; [apply write_at_in_range; assumption|].
  assert (Hsz : size (storage c) = capacity c) by apply Hwf.
  rewrite read_at_in_range; try assumption.
  - simpl. destruct c; simpl in *. rewrite slice_stored by lia. reflexivity.
  - apply wf_cell_set_storage; [assumption|].
    rewrite !size_app, size_slice, size_take, size_drop by lia. lia.
Qed.

Lemma write_then_read_roundtrip_witness :
  exists c1,
    mem_buffer.write_at mem_buffer.initial [x61; x62] 2 1
      (new_cell 8) = Ret true c1 /\
    mem_buffer.read_at mem_buffer.initial [x00; x00; x7a] 2 1 c1
    = Ret (true, [x61; x62; x7a]) c1.
Proof.
  apply (write_then_read_roundtrip mem_buffer.initial
           mem_buffer.initial (new_cell 8)
           [x61; x62] [x00; x00; x7a] 2 1).
  - by_computation.
  - lia.
  - lia.
  - by_computation.
  - by_computation.
  - by_computation.
Defined.

(** ** Reference counting *)

Lemma wf_cell_set_ref_counter n c : wf_cell c -> wf_cell (set_ref_counter n c).
Proof. intros H. open_cell c. exact H. Qed.

Lemma copy_in_range h c :
  wf_cell c -> ref_counter c < INT_MAX ->
  mem_buffer.copy h c = Ret (copy_of h) (set_ref_counter (ref_counter c + 1) c).
Proof.
  intros (Hal & Hlk & _) Hrc. open_cell c. subst al lk.
  unfold mem_buffer.copy, bind, mutex_lock, get_cell, int_incr. simpl.
  apply Z.ltb_lt in Hrc. rewrite Hrc. reflexivity.
Qed.

Lemma copy_overflow h c :
  INT_MAX <= ref_counter c -> forall h' c', mem_buffer.copy h c <> Ret h' c'.
Proof.
  intros Hrc h' c'. open_cell c.
  unfold mem_buffer.copy, bind, mutex_lock, get_cell, int_incr. simpl.
  apply Z.ltb_ge in Hrc.
  destruct (al && negb lk); simpl; [rewrite Hrc|]; discriminate.
Qed.

Lemma destroy_in_range h c :
  wf_cell c -> INT_MIN < ref_counter c ->
  mem_buffer.destroy h c
  = Ret tt (if (ref_counter c =? 1) && mem_buffer.enable_auto_release h
            then release_cell (set_ref_counter 0 c)
            else set_ref_counter (ref_counter c - 1) c).
Proof.
  intros (Hal & Hlk & _) Hrc. open_cell c. subst al lk.
  unfold mem_buffer.destroy, bind, mutex_lock, get_cell, int_decr. simpl.
  apply Z.ltb_lt in Hrc. rewrite Hrc. simpl.
  destruct (Z.eqb_spec rc 1) as [->|Hne].
  - simpl. destruct (mem_buffer.enable_auto_release h); reflexivity.
  - replace (rc - 1 =? 0) with false by (symmetry; apply Z.eqb_neq; lia).
    reflexivity.
Qed.

Lemma copies_in_range n h c :
  wf_cell c -> ref_counter c + Z.of_nat n <= INT_MAX ->
  copies n h c
  = Ret (replicate n (copy_of h))
        (set_ref_counter (ref_counter c + Z.of_nat n) c).
Proof.
  revert c. induction n as [|n IH]; intros c Hwf Hrc.
  - simpl. unfold ret. f_equal. open_cell c. f_equal. lia.
  - cbn [copies]. unfold bind at 1.
    rewrite copy_in_range by (try assumption; lia).
    unfold bind at 1. rewrite IH.
    + unfold ret. cbn [replicate]. f_equal. open_cell c. f_equal. lia.
    + apply wf_cell_set_ref_counter, Hwf.
    + open_cell c. lia.
Qed.

(** Destroying as many handles as the counter counts releases the cell
    once, with the last of them. *)
Lemma destroy_all_last hs c :
  wf_cell c -> hs <> [] -> ref_counter c = Z.of_nat (length hs) ->
  Forall (fun h => mem_buffer.enable_auto_release h = true) hs ->
  destroy_all hs c = Ret tt (release_cell (set_ref_counter 0 c)).
Proof.
  revert c. induction hs as [|h hs IH]; intros c Hwf Hne Hrc Hall; [done|].
  apply Forall_cons in Hall as [Hh Hall].
  cbn [destroy_all length] in *. unfold bind.
  rewrite destroy_in_range by (try assumption; unfold INT_MIN; lia).
  rewrite Hh, andb_true_r.
  destruct hs as [|h2 hs].
  - simpl in Hrc. rewrite Hrc. reflexivity.
  - replace (ref_counter c =? 1) with false
      by (symmetry; apply Z.eqb_neq; simpl in Hrc; lia).
    rewrite IH.
    + destruct c; reflexivity.
    + apply wf_cell_set_ref_counter, Hwf.
    + discriminate.
    + destruct c; simpl in Hrc |- *. lia.
    + exact Hall.
Qed.

(** C2, amended.  On a live cell: while the counter is below [INT_MAX] the
    copy constructor returns and the counter has grown by exactly 1; while
    it is above [INT_MIN] the destructor returns, the counter has shrunk by
    exactly 1, and the storage was released by this call exactly when the
    counter went from 1 to 0 and [enable_auto_release] is set; and [n]
    copies of the only handle of a buffer, [n < INT_MAX], followed by the
    destruction of the original and of the [n] copies, end with the counter
    at 0 and exactly one release. *)
Theorem reference_count_protocol (h : mem_buffer.t) (c : cell) (n : nat) :
  wf_cell c ->
  (ref_counter c < INT_MAX ->
   exists h' c', mem_buffer.copy h c = Ret h' c' /\
     ref_counter c' = ref_counter c + 1 /\
     releases c' = releases c /\ alive c' = true) /\
  (INT_MIN < ref_counter c ->
   exists c', mem_buffer.destroy h c = Ret tt c' /\
     ref_counter c' = ref_counter c - 1 /\
     (releases c', alive c')
     = if (ref_counter c =? 1) && mem_buffer.enable_auto_release h
       then (S (releases c), false) else (releases c, true)) /\
  (ref_counter c = 1 -> mem_buffer.enable_auto_release h = true ->
   Z.of_nat n < INT_MAX ->
   exists hs c1 c2,
     copies n h c = Ret hs c1 /\ length hs = n /\
     ref_counter c1 = 1 + Z.of_nat n /\ releases c1 = releases c /\
     destroy_all (h :: hs) c1 = Ret tt c2 /\
     ref_counter c2 = 0 /\ releases c2 = S (releases c) /\ alive c2 = false).
Proof.
  intros Hwf. split; [|split].
  - intros Hrc. eexists _, _. split; [apply copy_in_range; assumption|].
    open_cell c. tauto.
  - intros Hrc. eexists. split; [apply destroy_in_range; assumption|].
    open_cell c. destruct Hwf as (-> & _).
    destruct ((rc =? 1) && mem_buffer.enable_auto_release h) eqn:E; simpl.
    + apply andb_true_iff in E as [E _]. apply Z.eqb_eq in E. split; [lia|done].
    + done.
  - intros Hrc Hh Hn. eexists _, _, _.
    split; [apply copies_in_range; [assumption|lia]|].
    split; [apply length_replicate|].
    split; [open_cell c; lia|]. split; [open_cell c; reflexivity|].
    split.
    + apply destroy_all_last.
      * apply wf_cell_set_ref_counter, Hwf.
      * done.
      * cbn [length]. rewrite length_replicate. open_cell c. lia.
      * apply Forall_cons. split; [assumption|].
        apply Forall_replicate. exact Hh.
    + open_cell c. done.
Qed.

Lemma reference_count_protocol_witness :
  exists hs c1 c2,
    copies 3 mem_buffer.initial (new_cell 8) = Ret hs c1 /\
    length hs = 3%nat /\ ref_counter c1 = 4 /\ releases c1 = 0%nat /\
    destroy_all (mem_buffer.initial :: hs) c1 = Ret tt c2 /\
    ref_counter c2 = 0 /\ releases c2 = 1%nat /\ alive c2 = false.
Proof.
  assert (Hwf : wf_cell (new_cell 8)).
  { by_computation. }
  destruct (reference_count_protocol mem_buffer.initial
              (new_cell 8) 3 Hwf) as (_ & _ & H).
  apply H.
  - reflexivity.
  - reflexivity.
  - reflexivity.
Defined.

(** C2 as stated does not hold of every handle: the [INT_MAX - 1] copies
    of the handle of a fresh buffer all succeed, and the next copy does not
    return with the counter one higher. *)
Lemma copy_at_INT_MAX_counterexample :
  exists hs c,
    copies (Z.to_nat (INT_MAX - 1)) mem_buffer.initial
      (new_cell 8) = Ret hs c /\
    wf_cell c /\
    ~ (exists h' c', mem_buffer.copy mem_buffer.initial c = Ret h' c' /\
                     ref_counter c' = ref_counter c + 1).
Proof.
  assert (Hwf : wf_cell (new_cell 8)).
  { by_computation. }
  eexists _, _. split; [|split].
  - apply copies_in_range; [exact Hwf|].
    rewrite Z2Nat.id by (unfold INT_MAX; lia).
    change (ref_counter (new_cell 8)) with 1. lia.
  - apply wf_cell_set_ref_counter, Hwf.
  - intros (h' & c' & Hc & _). revert Hc. apply copy_overflow.
    rewrite Z2Nat.id by (unfold INT_MAX; lia).
    change (ref_counter (set_ref_counter ?x _)) with x.
    change (ref_counter (new_cell 8)) with 1. lia.
Qed.

(** ** Growth *)

Lemma expand_refused {Al : Allocator} h c :
  mem_buffer.enable_auto_release h && mem_buffer.enable_auto_expand h = false ->
  mem_buffer.expand h c = Ret false c.
Proof. intros H. unfold mem_buffer.expand. rewrite H. reflexivity. Qed.

Lemma drop_zeroed n m : 0 <= n -> 0 <= m ->
  drop (Z.to_nat n) (zeroed (n + m)) = zeroed m.
Proof.
  intros Hn Hm. unfold zeroed. rewrite drop_replicate. f_equal. lia.
Qed.

Lemma slice_all (b : block) : slice b 0 (size b) = b.
Proof.
  unfold slice, size. rewrite Nat2Z.id. simpl. apply firstn_all.
Qed.

Lemma memset_block (p : block) n :
  size p = n -> memset p x00 n = Some (zeroed n).
Proof.
  intros Hp. unfold memset.
  rewrite in_block_true by (pose proof (size_nonneg p); lia).
  rewrite drop_ge by (unfold size in Hp; lia).
  unfold zeroed. rewrite app_nil_r. reflexivity.
Qed.

Lemma expand_in_range {Al : Allocator} h c :
  policies_on h -> alive c = true -> sized c ->
  0 <= mem_buffer.single_expand_size h ->
  capacity c + mem_buffer.single_expand_size h < size_modulus ->
  is_Some (alloc (capacity c + mem_buffer.single_expand_size h)) ->
  mem_buffer.expand h c
  = Ret true
      (set_capacity (capacity c + mem_buffer.single_expand_size h)
         (set_storage (storage c ++ zeroed (mem_buffer.single_expand_size h)) c)).
Proof.
  intros (Har & Hae) Hal (Hsz & Hcap) Hinc Hfit (p & Hp).
  unfold mem_buffer.expand, bind, get_cell. rewrite Har, Hae. simpl.
  rewrite wrap_small by (unfold is_size_t in *; lia).
  rewrite Hp. unfold defined. rewrite (memset_block p _ (alloc_size _ _ Hp)).
  unfold ret at 1. rewrite Hal.
  rewrite memcpy_defined.
  - simpl. unfold ret, put_cell. do 3 f_equal.
    rewrite <- Hsz at 1. rewrite slice_all.
    rewrite Z.add_0_l, drop_zeroed by (unfold is_size_t in *; lia).
    reflexivity.
  - lia.
  - lia.
  - apply Hcap.
  - rewrite size_zeroed by (unfold is_size_t in *; lia). lia.
  - lia.
Qed.

(** C4, amended.  [expand()] returns false and leaves the cell as it is
    unless both policy flags are set.  With both set, on a live cell whose
    block holds [capacity] bytes, with [capacity + single_expand_size]
    below [2^64] and an allocator that hands out a block of that size, it
    returns true; the capacity has grown by [single_expand_size], the first
    [capacity] bytes of the new block are the old block, the bytes after
    them are zero, and nothing else in the cell has changed. *)
Theorem expand_policy_and_growth {Al : Allocator} (h : mem_buffer.t) (c : cell) :
  (mem_buffer.enable_auto_release h && mem_buffer.enable_auto_expand h = false ->
   mem_buffer.expand h c = Ret false c) /\
  (policies_on h -> alive c = true -> sized c ->
   0 <= mem_buffer.single_expand_size h ->
   capacity c + mem_buffer.single_expand_size h < size_modulus ->
   is_Some (alloc (capacity c + mem_buffer.single_expand_size h)) ->
   exists c',
     mem_buffer.expand h c = Ret true c' /\
     capacity c' = capacity c + mem_buffer.single_expand_size h /\
     size (storage c') = capacity c' /\
     take (Z.to_nat (capacity c)) (storage c') = storage c /\
     drop (Z.to_nat (capacity c)) (storage c')
     = zeroed (mem_buffer.single_expand_size h) /\
     (ref_counter c', locked c', alive c', releases c')
     = (ref_counter c, locked c, alive c, releases c)).
Proof.
  split; [apply expand_refused|].
  intros Hp Hal Hsz Hinc Hfit Hblock.
  eexists. split; [apply expand_in_range; assumption|].
  destruct Hsz as (Hsz & Hcap). destruct c as [st cap rc lk al rel].
  unfold size in *. simpl in *.
  repeat split.
  - rewrite length_app. unfold zeroed. rewrite length_replicate. lia.
  - apply take_app_length'. lia.
  - apply drop_app_length'. lia.
Qed.

Lemma expand_policy_and_growth_witness :
  exists c',
    mem_buffer.expand (mem_buffer.set_auto_expand_size 8 mem_buffer.initial)
      counting_cell
    = Ret true c' /\
    capacity c' = 16 /\
    size (storage c') = capacity c' /\
    take 8 (storage c') = [x01; x02; x03; x04; x05; x06; x07; x08] /\
    drop 8 (storage c') = [x00; x00; x00; x00; x00; x00; x00; x00] /\
    (ref_counter c', locked c', alive c', releases c') = (1, false, true, 0%nat).
Proof.
  apply (proj2 (expand_policy_and_growth
                  (mem_buffer.set_auto_expand_size 8 mem_buffer.initial)
                  counting_cell)).
  - split; reflexivity.
  - reflexivity.
  - by_computation.
  - by_computation.
  - by_computation.
  - eexists. reflexivity.
Defined.

(** C4 as stated fails when [capacity + single_expand_size] is not a
    [size_t]: with capacity 8 and an increment of [2^64 - 1] the new block
    has 7 bytes and the copy of the old 8 bytes leaves it. *)
Lemma expand_wraps_counterexample :
  policies_on (mem_buffer.set_auto_expand_size (size_modulus - 1)
                 mem_buffer.initial) /\
  ~ (exists c',
       mem_buffer.expand
         (mem_buffer.set_auto_expand_size (size_modulus - 1)
            mem_buffer.initial)
         (new_cell 8) = Ret true c' /\
       capacity c'
       = capacity (new_cell 8) + (size_modulus - 1)).
Proof.
  split; [split; reflexivity|].
  intros (c' & H & _). vm_compute in H. discriminate.
Qed.

(** One call of [write] grows the buffer by one increment: enough when the
    range ends inside the grown block. *)
Lemma write_at_grows_once {Al : Allocator} h src len off c :
  policies_on h -> wf_cell c ->
  0 <= mem_buffer.single_expand_size h ->
  is_Some (alloc (capacity c + mem_buffer.single_expand_size h)) ->
  capacity c + mem_buffer.single_expand_size h < size_modulus ->
  0 <= off -> 0 <= len -> len <= size src ->
  capacity c < off + len <= capacity c + mem_buffer.single_expand_size h ->
  exists c',
    mem_buffer.write_at h src len off c = Ret true c' /\
    capacity c' = capacity c + mem_buffer.single_expand_size h /\
    size (storage c') = capacity c' /\
    slice (storage c') off len = slice src 0 len.
Proof.
  intros Hp (Hal & Hlk & Hsz) Hinc Hblock Hfit Ho Hl Hs Hr.
  pose proof Hsz as (Hsz1 & Hcap).
  pose proof (expand_in_range h (set_locked true c) Hp Hal Hsz Hinc Hfit Hblock) as He.
  open_cell c. subst al lk.
  unfold mem_buffer.write_at, bind, mutex_lock, get_cell, set_locked. simpl.
  rewrite wrap_small by (unfold is_size_t in *; lia).
  replace (cap <? len + off) with true by (symmetry; apply Z.ltb_lt; lia).
  destruct Hp as (Har & Hae). rewrite Hae, He.
  unfold ret, store, bind, get_cell, mutex_unlock, put_cell, set_storage,
    set_locked. simpl.
  rewrite memcpy_defined; try lia.
  2:{ rewrite size_app, size_zeroed by lia. lia. }
  simpl. eexists. split; [reflexivity|]. simpl.
  split; [reflexivity|]. split.
  - rewrite !size_app, size_slice, size_take, size_drop;
      rewrite ?size_app, ?size_zeroed; lia.
  - apply slice_stored; rewrite ?size_app, ?size_zeroed; lia.
Qed.

(** Past the grown block the copy leaves the storage. *)
Lemma write_at_beyond_growth {Al : Allocator} h src len off c :
  policies_on h -> wf_cell c ->
  0 <= mem_buffer.single_expand_size h ->
  is_Some (alloc (capacity c + mem_buffer.single_expand_size h)) ->
  capacity c + mem_buffer.single_expand_size h < off + len ->
  off + len < size_modulus -> 0 <= off -> 0 <= len ->
  mem_buffer.write_at h src len off c = Undefined.
Proof.
  intros Hp (Hal & Hlk & Hsz) Hinc Hblock Hbig Hfit Ho Hl.
  pose proof Hsz as (Hsz1 & Hcap).
  assert (Hfit' : capacity c + mem_buffer.single_expand_size h < size_modulus)
    by lia.
  pose proof (expand_in_range h (set_locked true c) Hp Hal Hsz Hinc Hfit' Hblock) as He.
  open_cell c. subst al lk.
  unfold mem_buffer.write_at, bind, mutex_lock, get_cell, set_locked. simpl.
  rewrite wrap_small by (unfold is_size_t in *; lia).
  replace (cap <? len + off) with true by (symmetry; apply Z.ltb_lt; lia).
  destruct Hp as (Har & Hae). rewrite Hae, He.
  unfold ret, store, bind, get_cell, set_storage. simpl.
  rewrite memcpy_outside_dst; [reflexivity|].
  rewrite size_app, size_zeroed by lia. lia.
Qed.

(** C3 at a failing input.  A fresh buffer of capacity 8 has
    [enable_auto_expand] set and the default increment of 16384 bytes.
    [write(src, 4, 20000)] exceeds the capacity; [expand()] raises the
    capacity to 16392, which is still below [20000 + 4], and the copy
    leaves the block. *)
Theorem write_beyond_one_growth_step :
  mem_buffer.enable_auto_expand mem_buffer.initial = true /\
  capacity (new_cell 8) < 20000 + 4 /\
  (exists c', mem_buffer.expand mem_buffer.initial
                (new_cell 8) = Ret true c' /\
              capacity c' = 16392 /\ size (storage c') = 16392) /\
  mem_buffer.write_at mem_buffer.initial [x01; x02; x03; x04] 4 20000
    (new_cell 8) = Undefined.
Proof.
  split; [reflexivity|]. split; [simpl; lia|]. split.
  - eexists. split; [vm_compute; reflexivity|]. split; vm_compute; reflexivity.
  - apply write_at_beyond_growth.
    + split; reflexivity.
    + by_computation.
    + by_computation.
    + eexists. reflexivity.
    + by_computation.
    + by_computation.
    + lia.
    + lia.
Qed.

(** ** The bounds tests of [read] and [write] *)

Lemma read_at_past_capacity h dst len off c :
  0 <= off -> 0 <= len -> off + len < size_modulus ->
  capacity c < off + len ->
  mem_buffer.read_at h dst len off c = Ret (false, dst) c.
Proof.
  intros Ho Hl Hfit Hr. apply read_at_rejected.
  rewrite wrap_small by (unfold is_size_t; lia). lia.
Qed.

(** When [len + off] wraps to a value within the capacity, the test lets
    the call through and the copy starts outside the block. *)
Lemma read_at_wrapped h dst len off c :
  wf_cell c -> 0 <= len -> 
  wrap (len + off) <= capacity c < off + len ->
  mem_buffer.read_at h dst len off c = Undefined.
Proof.
  intros (Hal & Hlk & Hsz & Hcap) Hl Hr. open_cell c. subst al lk.
  unfold mem_buffer.read_at, bind, get_cell. simpl.
  replace (cap <? wrap (len + off)) with false by (symmetry; apply Z.ltb_ge; lia).
  unfold mutex_lock, load, bind, get_cell. simpl.
  rewrite memcpy_outside_src by lia. reflexivity.
Qed.

(** C5 at a failing input.  On a fresh buffer of capacity 8,
    [read(dst, 2, 2^64 - 1)] has [offset + len > capacity]; the sum wraps to
    1, the bounds test passes, and the call copies from outside the block
    instead of returning false. *)
Theorem read_at_wrapped_offset :
  capacity (new_cell 8) < (size_modulus - 1) + 2 /\
  wrap (2 + (size_modulus - 1)) = 1 /\
  mem_buffer.read_at mem_buffer.initial [x00; x00] 2 (size_modulus - 1)
    (new_cell 8) = Undefined /\
  mem_buffer.read_at mem_buffer.initial [x00; x00] 2 (size_modulus - 1)
    (new_cell 8)
  <> Ret (false, [x00; x00]) (new_cell 8).
Proof.
  assert (H : mem_buffer.read_at mem_buffer.initial [x00; x00] 2
                (size_modulus - 1) (new_cell 8) = Undefined).
  { apply read_at_wrapped; by_computation. }
  split; [by_computation|]. split; [by_computation|].
  split; [exact H|]. rewrite H. discriminate.
Qed.

(** The [else] branch of [write], for a handle whose [enable_auto_expand]
    is cleared: when the test fires the call throws before it copies, and
    the mutex stays held.  No handle that the constructors build has the
    flag cleared (see [reachable_policies]). *)
Lemma write_at_throws {Al : Allocator} h src len off c :
  alive c = true -> locked c = false ->
  mem_buffer.enable_auto_expand h = false ->
  capacity c < wrap (len + off) ->
  mem_buffer.write_at h src len off c = Throw (set_locked true c).
Proof.
  intros Hal Hlk Hae Hr. open_cell c. subst al lk.
  unfold mem_buffer.write_at, bind, mutex_lock, get_cell, set_locked. simpl.
  apply Z.ltb_lt in Hr. rewrite Hr, Hae. reflexivity.
Qed.

(** As for [read]: a sum [len + off] that wraps to a value within the
    capacity passes the test of [write], whatever the flags of the handle,
    and the copy starts outside the block. *)
Lemma write_at_wrapped {Al : Allocator} h src len off c :
  wf_cell c -> 0 <= len ->
  wrap (len + off) <= capacity c < off + len ->
  mem_buffer.write_at h src len off c = Undefined.
Proof.
  intros (Hal & Hlk & Hsz & Hcap) Hl Hr. open_cell c. subst al lk.
  unfold mem_buffer.write_at, bind, mutex_lock, get_cell, set_locked. simpl.
  replace (cap <? wrap (len + off)) with false by (symmetry; apply Z.ltb_ge; lia).
  unfold ret, store, bind, get_cell. simpl.
  rewrite memcpy_outside_dst by lia. reflexivity.
Qed.

(** ** The cursor of a handle *)

(** C7.  Whatever the bounds-checked [read(dst, len, pos)] returns, true or
    false, [read(dst, len)] returns the same and leaves the handle with its
    position advanced by [len] ([size_t] arithmetic); no other member of the
    handle changes. *)
Theorem read_advances_position
    (h : mem_buffer.t) (dst dst' : block) (len : Z) (c c' : cell) (r : bool) :
  mem_buffer.read_at h dst len (mem_buffer.pos h) c = Ret (r, dst') c' ->
  exists h',
    mem_buffer.read h dst len c = Ret (r, dst', h') c' /\
    mem_buffer.position h' = wrap (mem_buffer.pos h + len) /\
    (is_size_t (mem_buffer.pos h + len) ->
     mem_buffer.position h' = mem_buffer.pos h + len) /\
    h' = mem_buffer.set_pos (mem_buffer.position h') h.
Proof.
  intros H. eexists. unfold mem_buffer.read, bind. rewrite H. simpl.
  split; [reflexivity|]. split; [reflexivity|]. split; [|reflexivity].
  apply wrap_small.
Qed.

Lemma read_advances_position_witness :
  exists h',
    mem_buffer.read mem_buffer.initial [x00; x00; x00; x00; x00] 5 counting_cell
    = Ret (true, [x01; x02; x03; x04; x05], h') counting_cell /\
    mem_buffer.position h' = 5 /\
  exists h'',
    mem_buffer.read h' [x00; x00; x00; x00; x00] 5 counting_cell
    = Ret (false, [x00; x00; x00; x00; x00], h'') counting_cell /\
    mem_buffer.position h'' = 10.
Proof.
  destruct (read_advances_position mem_buffer.initial
              [x00; x00; x00; x00; x00] [x01; x02; x03; x04; x05] 5
              counting_cell counting_cell true eq_refl)
    as (h1 & Hr1 & Hp1 & _ & Hh1).
  exists h1. split; [exact Hr1|]. split; [exact Hp1|].
  rewrite Hh1, Hp1.
  destruct (read_advances_position
              (mem_buffer.set_pos (wrap (0 + 5)) mem_buffer.initial)
              [x00; x00; x00; x00; x00] [x00; x00; x00; x00; x00] 5
              counting_cell counting_cell false eq_refl)
    as (h2 & Hr2 & Hp2 & _).
  exists h2. split; [exact Hr2|exact Hp2].
Defined.


(** ** Typed views *)

Lemma construct_stream sz b c :
  wf_cell c -> ref_counter c < INT_MAX ->
  mem_stream.construct sz b c
  = Ret (mem_stream.Stream 0 (copy_of b) false sz)
        (set_ref_counter (ref_counter c + 1) c).
Proof.
  intros Hwf Hrc. unfold mem_stream.construct, bind.
  rewrite copy_in_range by assumption. reflexivity.
Qed.

(** [get] follows the outcome of the bounds-checked read. *)
Lemma get_follows_read s v c r v' c' :
  mem_buffer.read_at (mem_stream.buffer s) v (mem_stream.step s)
    (mem_stream.pos s) c = Ret (r, v') c' ->
  mem_stream.get s v c
  = Ret (r, v',
         let s1 := if r then mem_stream.set_pos
                               (wrap (mem_stream.pos s + mem_stream.step s)) s
                   else s in
         if capacity c' <=? mem_stream.pos s1
         then mem_stream.set_eof_bit true s1 else s1) c'.
Proof.
  intros H. unfold mem_stream.get, bind. rewrite H. reflexivity.
Qed.

Lemma get_in_range s v c :
  wf_cell c -> 0 <= mem_stream.pos s -> 0 <= mem_stream.step s ->
  mem_stream.step s <= size v ->
  mem_stream.pos s + mem_stream.step s <= capacity c ->
  mem_stream.get s v c
  = Ret (true,
         slice (storage c) (mem_stream.pos s) (mem_stream.step s)
           ++ drop (Z.to_nat (mem_stream.step s)) v,
         let s1 := mem_stream.set_pos (mem_stream.pos s + mem_stream.step s) s in
         if capacity c <=? mem_stream.pos s1
         then mem_stream.set_eof_bit true s1 else s1) c.
Proof.
  intros Hwf Hp Hs Hv Hr.
  rewrite (get_follows_read s v c true _ c
             (read_at_in_range _ v _ _ c Hwf Hp Hs Hr Hv)).
  cbv zeta. cbv iota.
  rewrite wrap_small; [reflexivity|].
  destruct Hwf as (_ & _ & _ & Hcap). unfold is_size_t in *. lia.
Qed.

Lemma get_rejected s v c :
  0 <= mem_stream.pos s -> 0 <= mem_stream.step s ->
  mem_stream.pos s + mem_stream.step s < size_modulus ->
  capacity c < mem_stream.pos s + mem_stream.step s ->
  mem_stream.get s v c
  = Ret (false, v,
         if capacity c <=? mem_stream.pos s
         then mem_stream.set_eof_bit true s else s) c.
Proof.
  intros Hp Hs Hfit Hr.
  rewrite (get_follows_read s v c false v c
             (read_at_past_capacity _ v _ _ c Hp Hs Hfit Hr)).
  reflexivity.
Qed.

(** [put] follows the outcome of [write]. *)
Lemma put_follows_write {Al : Allocator} s v c r c' :
  mem_buffer.write_at (mem_stream.buffer s) v (mem_stream.step s)
    (mem_stream.pos s) c = Ret r c' ->
  mem_stream.put s v c
  = Ret (r, mem_stream.set_pos (wrap (mem_stream.pos s + mem_stream.step s)) s) c'.
Proof.
  intros H. unfold mem_stream.put, bind. rewrite H. reflexivity.
Qed.

Lemma put_returns_after_write {Al : Allocator} s v c r s' c' :
  mem_stream.put s v c = Ret (r, s') c' ->
  mem_buffer.write_at (mem_stream.buffer s) v (mem_stream.step s)
    (mem_stream.pos s) c = Ret r c'.
Proof.
  unfold mem_stream.put, bind, ret.
  destruct (mem_buffer.write_at _ _ _ _ c) as [r0 c0| |]; try discriminate.
  intros [= -> _ ->]. reflexivity.
Qed.

(** [peek] is [get] followed by [pos--]. *)
Lemma peek_follows_read s v0 c r v c' :
  mem_buffer.read_at (mem_stream.buffer s) v0 (mem_stream.step s)
    (mem_stream.pos s) c = Ret (r, v) c' ->
  exists s',
    mem_stream.peek s v0 c = Ret (v, s') c' /\
    mem_stream.pos s'
    = wrap ((if r then wrap (mem_stream.pos s + mem_stream.step s)
             else mem_stream.pos s) - 1).
Proof.
  intros H. unfold mem_stream.peek, mem_stream.get_value, bind at 1.
  unfold bind at 1. rewrite (get_follows_read _ _ _ _ _ _ H).
  unfold ret. eexists. split; [reflexivity|].
  cbn -[wrap Z.leb].
  destruct r; destruct (capacity c' <=? _); reflexivity.
Qed.

(** On a view of one-byte elements a [peek] whose read succeeds leaves the
    position where it was and delivers the byte under the cursor. *)
Lemma peek_one_byte_in_range s v0 c :
  wf_cell c -> mem_stream.step s = 1 ->
  0 <= mem_stream.pos s -> mem_stream.pos s + 1 <= capacity c ->
  1 <= size v0 ->
  exists s',
    mem_stream.peek s v0 c
    = Ret (slice (storage c) (mem_stream.pos s) 1 ++ drop 1 v0, s') c /\
    mem_stream.pos s' = mem_stream.pos s.
Proof.
  intros Hwf Hst Hp Hr Hv.
  assert (Hcap : is_size_t (capacity c)) by apply Hwf.
  pose proof (read_at_in_range (mem_stream.buffer s) v0 (mem_stream.step s)
                (mem_stream.pos s) c Hwf Hp) as Hread.
  rewrite Hst in Hread. specialize (Hread ltac:(lia) Hr Hv).
  rewrite <- Hst in Hread at 1.
  destruct (peek_follows_read s v0 c true _ c Hread) as (s' & Hpk & Hpos).
  exists s'. rewrite Hst in *. split; [exact Hpk|].
  rewrite Hpos. unfold is_size_t in *.
  rewrite (wrap_small (_ + 1)) by (unfold is_size_t; lia).
  rewrite wrap_small by (unfold is_size_t; lia). lia.
Qed.

(** C8 at a failing input.  The [char16_t] view of a fresh buffer of
    capacity 8 starts at position 0; [peek()] reads the two bytes of the
    first element and leaves the position at 1. *)
Theorem peek_moves_char16_cursor :
  exists s c s',
    get_char16_stream mem_buffer.initial (new_cell 8)
    = Ret s c /\
    mem_stream.step s = 2 /\ mem_stream.pos s = 0 /\
    mem_stream.peek s [x00; x00] c = Ret ([x00; x00], s') c /\
    mem_stream.pos s' = 1.
Proof.
  eexists _, _, _. split; [vm_compute; reflexivity|].
  split; [reflexivity|]. split; [reflexivity|].
  split; [vm_compute; reflexivity|]. reflexivity.
Qed.

(** At the end of the data a [peek] moves even a one-byte view: the read is
    rejected, the position is not advanced, and [pos--] still runs. *)
Lemma peek_moves_byte_cursor_at_end :
  exists s c s1 s2,
    get_byte_stream mem_buffer.initial (new_cell 8) = Ret s c /\
    mem_stream.forward_n s 8 c = Ret s1 c /\ mem_stream.pos s1 = 8 /\
    mem_stream.peek s1 [x00] c = Ret ([x00], s2) c /\
    mem_stream.pos s2 = 7.
Proof.
  eexists _, _, _, _. split; [vm_compute; reflexivity|].
  split; [vm_compute; reflexivity|]. split; [reflexivity|].
  split; [vm_compute; reflexivity|]. reflexivity.
Qed.

Lemma back_by_spec n s c :
  mem_stream.back_by n s c
  = Ret (let s1 := mem_stream.set_pos (wrap (mem_stream.pos s - n)) s in
         if mem_stream.pos s1 <? capacity c
         then mem_stream.set_eof_bit false s1 else s1) c.
Proof. reflexivity. Qed.

Lemma forward_by_spec n s c :
  mem_stream.forward_by n s c
  = Ret (let s1 := mem_stream.set_pos (wrap (mem_stream.pos s + n)) s in
         if capacity c <=? mem_stream.pos s1
         then mem_stream.set_eof_bit true s1 else s1) c.
Proof. reflexivity. Qed.

(** Stepping forward keeps the end marker in step with the position as long
    as the position does not wrap. *)
Lemma forward_keeps_sync s c :
  0 <= mem_stream.pos s -> 0 <= mem_stream.step s ->
  mem_stream.pos s + mem_stream.step s < size_modulus ->
  eof_in_sync s c ->
  exists s',
    mem_stream.forward s c = Ret s' c /\
    mem_stream.pos s' = mem_stream.pos s + mem_stream.step s /\
    eof_in_sync s' c.
Proof.
  intros Hp Hs Hfit Hsync. unfold mem_stream.forward.
  rewrite forward_by_spec. eexists. split; [reflexivity|].
  cbv zeta. rewrite wrap_small by (unfold is_size_t; lia).
  unfold eof_in_sync in *. destruct s as [p b e st]. simpl in *.
  destruct (capacity c <=? p + st) eqn:E; simpl; rewrite ?E.
  - split; reflexivity.
  - split; [reflexivity|]. rewrite Hsync. apply Z.leb_gt in E.
    apply Z.leb_gt. lia.
Qed.

(** C9, amended.  A view starts at position 0 with the end marker clear.
    On a live buffer, without wrap-around of the position: [get] returns
    whether the element lies within the capacity and advances the position
    by one element exactly then, leaving it alone otherwise; a [put] that
    returns has advanced the position by one element and left the end
    marker as it was (and a [put] within the capacity returns); [back]
    steps back by one element.  After [get] the end marker is set if the
    position has reached the capacity, after [back] it is clear if the
    position is below the capacity, and both keep the end marker equal to
    [position >= capacity] if it was so before. *)
Theorem view_cursor_protocol {Al : Allocator} (s : mem_stream.t) (c : cell) (v : block) :
  wf_cell c ->
  0 <= mem_stream.pos s -> 0 <= mem_stream.step s ->
  mem_stream.step s <= size v ->
  mem_stream.pos s + mem_stream.step s < size_modulus ->
  (forall sz b, ref_counter c < INT_MAX ->
   exists s0 c0,
     mem_stream.construct sz b c = Ret s0 c0 /\
     mem_stream.pos s0 = 0 /\ mem_stream.eof s0 = false /\
     mem_stream.step s0 = sz /\ capacity c0 = capacity c /\
     (0 < capacity c -> eof_in_sync s0 c0)) /\
  (exists v' s',
     mem_stream.get s v c
     = Ret (mem_stream.pos s + mem_stream.step s <=? capacity c, v', s') c /\
     mem_stream.pos s'
     = (if mem_stream.pos s + mem_stream.step s <=? capacity c
        then mem_stream.pos s + mem_stream.step s else mem_stream.pos s) /\
     (capacity c <= mem_stream.pos s' -> mem_stream.eof s' = true) /\
     (eof_in_sync s c -> eof_in_sync s' c)) /\
  (forall r s' c',
     mem_stream.put s v c = Ret (r, s') c' ->
     mem_stream.pos s' = mem_stream.pos s + mem_stream.step s /\
     mem_stream.eof s' = mem_stream.eof s) /\
  (mem_stream.pos s + mem_stream.step s <= capacity c ->
   exists s' c',
     mem_stream.put s v c = Ret (true, s') c' /\ capacity c' = capacity c) /\
  (mem_stream.step s <= mem_stream.pos s ->
   exists s',
     mem_stream.back s c = Ret s' c /\
     mem_stream.pos s' = mem_stream.pos s - mem_stream.step s /\
     (mem_stream.pos s' < capacity c -> mem_stream.eof s' = false) /\
     (eof_in_sync s c -> eof_in_sync s' c)).
Proof.
  intros Hwf Hp Hs Hv Hfit.
  assert (Hcap : is_size_t (capacity c)) by apply Hwf.
  unfold is_size_t in Hcap.
  split; [|split; [|split; [|split]]].
  - intros sz b Hrc. eexists _, _.
    split; [apply construct_stream; assumption|].
    destruct c; repeat split. unfold eof_in_sync. simpl in *.
    intros Hpos. symmetry. apply Z.leb_gt. exact Hpos.
  - destruct (Z.leb_spec (mem_stream.pos s + mem_stream.step s) (capacity c))
      as [Hin|Hout].
    + eexists _, _. split; [apply get_in_range; assumption|].
      cbv zeta. unfold eof_in_sync. destruct s as [p b e st]. simpl in *.
      destruct (capacity c <=? p + st) eqn:E; simpl; rewrite ?E.
      * repeat split; reflexivity.
      * apply Z.leb_gt in E. split; [reflexivity|]. split; [lia|].
        intros ->. apply Z.leb_gt. lia.
    + eexists _, _. split; [apply get_rejected; assumption|].
      unfold eof_in_sync. destruct s as [p b e st]. simpl in *.
      destruct (capacity c <=? p) eqn:E; simpl; rewrite ?E.
      * repeat split; reflexivity.
      * split; [reflexivity|]. split; [apply Z.leb_gt in E; lia|].
        intros ->. reflexivity.
  - intros r s' c' Hput.
    pose proof (put_returns_after_write _ _ _ _ _ _ Hput) as Hw.
    rewrite (put_follows_write _ _ _ _ _ Hw) in Hput.
    injection Hput as <-.
    rewrite wrap_small by (unfold is_size_t; lia).
    destruct s; split; reflexivity.
  - intros Hin. eexists _, _. split.
    + apply put_follows_write, write_at_in_range; assumption.
    + destruct c; reflexivity.
  - intros Hback. unfold mem_stream.back. rewrite back_by_spec.
    eexists. split; [reflexivity|]. cbv zeta.
    rewrite wrap_small by (unfold is_size_t; lia).
    unfold eof_in_sync. destruct s as [p b e st]. simpl in *.
    destruct (p - st <? capacity c) eqn:E; simpl.
    * split; [reflexivity|]. split; [reflexivity|].
      intros _. symmetry. apply Z.leb_gt.
      apply Z.ltb_lt in E. exact E.
    * apply Z.ltb_ge in E. split; [reflexivity|]. split; [lia|].
      intros ->. apply eq_true_iff_eq. rewrite !Z.leb_le. lia.
Qed.

Lemma view_cursor_protocol_witness :
  exists s',
    mem_stream.back (mem_stream.Stream 8 mem_buffer.initial true 1)
      (new_cell 8) = Ret s' (new_cell 8) /\
    mem_stream.pos s' = 7 /\
    (mem_stream.pos s' < capacity (new_cell 8) -> mem_stream.eof s' = false) /\
    (eof_in_sync (mem_stream.Stream 8 mem_buffer.initial true 1) (new_cell 8) ->
     eof_in_sync s' (new_cell 8)).
Proof.
  apply (view_cursor_protocol
           (mem_stream.Stream 8 mem_buffer.initial true 1) (new_cell 8) [x00]).
  - by_computation.
  - by_computation.
  - by_computation.
  - by_computation.
  - by_computation.
  - by_computation.
Defined.

(** C9 as stated fails on [put] and on a rejected [get].  The byte view of
    a fresh buffer of capacity 8, moved forward to its last element, has
    its end marker in step with its position; after one [put] the position
    is 8, the capacity is 8, and [eof()] is false; the [get] that follows is
    rejected and leaves the position at 8. *)
Lemma put_then_get_counterexample :
  exists s0 c s c1 s1 s2,
    get_byte_stream mem_buffer.initial (new_cell 8) = Ret s0 c /\
    mem_stream.forward_n s0 7 c = Ret s c /\
    mem_stream.pos s = 7 /\ eof_in_sync s c /\
    mem_stream.put s [x41] c = Ret (true, s1) c1 /\
    mem_stream.pos s1 = 8 /\ capacity c1 = 8 /\ mem_stream.eof s1 = false /\
    ~ (mem_stream.eof s1 = true <-> capacity c1 <= mem_stream.pos s1) /\
    mem_stream.get s1 [x00] c1 = Ret (false, [x00], s2) c1 /\
    mem_stream.pos s2 <> mem_stream.pos s1 + mem_stream.step s1.
Proof.
  eexists _, _, _, _, _, _.
  split; [vm_compute; reflexivity|]. split; [vm_compute; reflexivity|].
  split; [reflexivity|]. split; [reflexivity|].
  split; [vm_compute; reflexivity|].
  split; [reflexivity|]. split; [reflexivity|]. split; [reflexivity|].
  split; [|split; [vm_compute; reflexivity|]].
  - simpl. intros [_ H]. specialize (H ltac:(lia)). discriminate.
  - simpl. lia.
Qed.

(** ** Construction *)

(** The store of [*ptr] stays inside the block [ptr] exactly when the
    capacity asked for is at least the size of a pointer. *)
Lemma pointer_fits {Al : Allocator} n p :
  alloc n = Some p -> in_block p 0 sizeof_pointer = (sizeof_pointer <=? n).
Proof.
  intros Hp. unfold in_block. rewrite (alloc_size _ _ Hp). reflexivity.
Qed.

(** What the constructor builds, when it builds: [mem_buffer.initial] on a
    zero-filled block of [n] bytes, with the mutex as it was handed in; and
    then [n] is at least the size of a pointer. *)
Lemma construct_outcome {Al : Allocator} n m h c :
  mem_buffer.construct n m = mem_buffer.Built h c ->
  h = mem_buffer.initial /\ c = Cell (zeroed n) n 1 m true 0 /\
  sizeof_pointer <= n.
Proof.
  unfold mem_buffer.construct.
  destruct (alloc n) as [p|] eqn:Hp; [|discriminate].
  rewrite (pointer_fits n p Hp).
  destruct (Z.leb_spec sizeof_pointer n) as [Hn|Hn]; [|discriminate].
  rewrite (memset_block p n (alloc_size _ _ Hp)).
  intros [= <- <-]. repeat split. exact Hn.
Qed.

Lemma construct_built {Al : Allocator} n h c :
  mem_buffer.construct n new_mutex = mem_buffer.Built h c ->
  h = mem_buffer.initial /\ c = new_cell n.
Proof.
  intros Hc. apply construct_outcome in Hc as (-> & -> & _).
  split; reflexivity.
Qed.

Lemma construct_granted {Al : Allocator} n m :
  is_Some (alloc n) -> sizeof_pointer <= n ->
  mem_buffer.construct n m
  = mem_buffer.Built mem_buffer.initial (Cell (zeroed n) n 1 m true 0).
Proof.
  intros (p & Hp) Hn. unfold mem_buffer.construct. rewrite Hp.
  rewrite (pointer_fits n p Hp).
  replace (sizeof_pointer <=? n) with true by (symmetry; apply Z.leb_le, Hn).
  rewrite (memset_block p n (alloc_size _ _ Hp)). reflexivity.
Qed.

(** A capacity below the size of a pointer: the store of [*ptr] leaves the
    block [ptr]. *)
Lemma construct_too_small {Al : Allocator} n m :
  is_Some (alloc n) -> n < sizeof_pointer ->
  mem_buffer.construct n m = mem_buffer.Unspecified.
Proof.
  intros (p & Hp) Hn. unfold mem_buffer.construct. rewrite Hp.
  rewrite (pointer_fits n p Hp).
  replace (sizeof_pointer <=? n) with false by (symmetry; apply Z.leb_gt, Hn).
  reflexivity.
Qed.

(** On the heap, [mem_buffer<> b(8)] and [mem_buffer<> b(7)]. *)
Example construct_on_heap :
  mem_buffer.construct 8 new_mutex
  = mem_buffer.Built mem_buffer.initial (new_cell 8) /\
  mem_buffer.construct 7 new_mutex = mem_buffer.Unspecified.
Proof. split; reflexivity. Qed.

(** ** The policy flags *)

Lemma set_pos_flags p h :
  policies_on h -> policies_on (mem_buffer.set_pos p h).
Proof. intros H. exact H. Qed.

Lemma read_returns_handle h dst len c r c' :
  mem_buffer.read h dst len c = Ret r c' ->
  r.2 = mem_buffer.set_pos (wrap (mem_buffer.pos h + len)) h.
Proof.
  unfold mem_buffer.read, bind, ret.
  destruct (mem_buffer.read_at _ _ _ _ c); try discriminate.
  intros [= <- _]. reflexivity.
Qed.

Lemma write_returns_handle {Al : Allocator} h src len c r c' :
  mem_buffer.write h src len c = Ret r c' ->
  r.2 = mem_buffer.set_pos (wrap (mem_buffer.pos h + len)) h.
Proof.
  unfold mem_buffer.write, bind, ret.
  destruct (mem_buffer.write_at _ _ _ _ c); try discriminate.
  intros [= <- _]. reflexivity.
Qed.

(** No member function changes the flags of the handle it is called on. *)
Lemma run_keeps_policies {Al : Allocator} o h c h' c' :
  world.run o h c = Ret h' c' -> policies_on h -> policies_on h'.
Proof.
  destruct o; simpl; unfold bind, ret; intros Hrun Hp.
  - destruct (mem_buffer.read_at _ _ _ _ c); try discriminate.
    injection Hrun as <- _. exact Hp.
  - destruct (mem_buffer.read _ _ _ c) eqn:E; try discriminate.
    injection Hrun as <- _. rewrite (read_returns_handle _ _ _ _ _ _ E).
    exact Hp.
  - destruct (mem_buffer.write_at _ _ _ _ c); try discriminate.
    injection Hrun as <- _. exact Hp.
  - destruct (mem_buffer.write _ _ _ c) eqn:E; try discriminate.
    injection Hrun as <- _. rewrite (write_returns_handle _ _ _ _ _ _ E).
    exact Hp.
  - destruct (mem_buffer.write_value _ _ c) eqn:E; try discriminate.
    injection Hrun as <- _. unfold mem_buffer.write_value in E.
    rewrite (write_returns_handle _ _ _ _ _ _ E). exact Hp.
  - destruct (mem_buffer.read_value _ _ c) eqn:E; try discriminate.
    injection Hrun as <- _. unfold mem_buffer.read_value in E.
    rewrite (read_returns_handle _ _ _ _ _ _ E). exact Hp.
  - injection Hrun as <- _. exact Hp.
  - injection Hrun as <- _. exact Hp.
  - injection Hrun as <- _. exact Hp.
  - destruct (mem_buffer.expand _ c); try discriminate.
    injection Hrun as <- _. exact Hp.
Qed.

Lemma copy_keeps_policies h c h' c' :
  mem_buffer.copy h c = Ret h' c' -> policies_on h -> policies_on h'.
Proof.
  unfold mem_buffer.copy, bind, ret, mutex_lock, mutex_unlock, get_cell,
    put_cell, defined, undefined.
  destruct (alive c && negb (locked c)); try discriminate. simpl.
  destruct (int_incr (ref_counter c)); try discriminate. simpl.
  destruct (alive c); try discriminate. simpl.
  intros [= <- _] Hp. exact Hp.
Qed.

Lemma reachable_policies {Al : Allocator} w :
  world.reachable w -> Forall policies_on (world.handles w).
Proof.
  induction 1 as [n h c Hn Hc|w w' Hw IH Hstep].
  - apply construct_built in Hc as (-> & _).
    apply Forall_cons. split; [split; reflexivity|apply Forall_nil_2].
  - destruct Hstep as [i o h h' c' w Hi Hrun|i o h c' w Hi Hrun
                      |i h h' c' w Hi Hcopy|i h c' w Hi Hd]; simpl.
    + apply Forall_insert; [exact IH|].
      eapply run_keeps_policies; [exact Hrun|].
      eapply Forall_lookup_1; eassumption.
    + exact IH.
    + apply Forall_app. split; [exact IH|].
      apply Forall_cons. split; [|apply Forall_nil_2].
      eapply copy_keeps_policies; [exact Hcopy|].
      eapply Forall_lookup_1; eassumption.
    + apply Forall_delete. exact IH.
Qed.

(** With both flags set [expand()] does not return false. *)
Lemma expand_not_refused {Al : Allocator} h c c' :
  policies_on h -> mem_buffer.expand h c <> Ret false c'.
Proof.
  intros (Har & Hae). unfold mem_buffer.expand, bind, get_cell, ret, put_cell.
  rewrite Har, Hae. simpl.
  destruct (alloc _); [|discriminate].
  destruct (memset _ _ _); simpl; [|discriminate].
  destruct (alive c); [|discriminate].
  destruct (memcpy _ _ _ _ _); simpl; discriminate.
Qed.

(** With [enable_auto_expand] set [write] does not throw. *)
Lemma write_at_does_not_throw {Al : Allocator} h src len off c c' :
  mem_buffer.enable_auto_expand h = true ->
  mem_buffer.write_at h src len off c <> Throw c'.
Proof.
  intros Hae.
  unfold mem_buffer.write_at, bind at 1, mutex_lock.
  destruct (alive c && negb (locked c)); [|discriminate].
  unfold bind at 1, get_cell. unfold bind at 1.
  assert (Hstore : forall c0,
            (store src len off;;; mutex_unlock;;; ret true) c0 <> Throw c').
  { intros c0. unfold store, bind, get_cell, put_cell, mutex_unlock, ret.
    destruct (alive c0); [|discriminate].
    destruct (memcpy _ _ _ _ _); simpl; [|discriminate].
    destruct (alive c0 && locked c0); discriminate. }
  destruct (capacity (set_locked true c) <? wrap (len + off)).
  - rewrite Hae. unfold bind at 1.
    unfold mem_buffer.expand, bind, get_cell, put_cell.
    destruct (_ && _); simpl.
    + destruct (alloc _); [|discriminate].
      destruct (memset _ _ _); simpl; [|discriminate].
      destruct (alive c); [|discriminate].
      destruct (memcpy _ _ _ _ _); simpl; [apply Hstore|discriminate].
    + apply Hstore.
  - apply Hstore.
Qed.

(** C10.  In every state reached from the construction of a buffer by
    member calls, copies and destructions, every handle has both policy
    flags set; so [expand()] on it never returns false and [write] on it
    never throws. *)
Theorem policies_always_on {Al : Allocator} (w : world.t) (h : mem_buffer.t) :
  world.reachable w -> h ∈ world.handles w ->
  policies_on h /\
  (forall c c', mem_buffer.expand h c <> Ret false c') /\
  (forall src len off c c', mem_buffer.write_at h src len off c <> Throw c').
Proof.
  intros Hw Hh.
  assert (Hp : policies_on h).
  { pose proof (reachable_policies w Hw) as Hall.
    rewrite Forall_forall in Hall. apply Hall, Hh. }
  split; [exact Hp|]. split.
  - intros c c'. apply expand_not_refused, Hp.
  - intros src len off c c'. apply write_at_does_not_throw, Hp.
Qed.

Lemma policies_always_on_witness :
  policies_on (copy_of (mem_buffer.set_position 2 mem_buffer.initial)) /\
  (forall c c',
     mem_buffer.expand
       (copy_of (mem_buffer.set_position 2 mem_buffer.initial)) c
     <> Ret false c') /\
  (forall src len off c c',
     mem_buffer.write_at
       (copy_of (mem_buffer.set_position 2 mem_buffer.initial))
       src len off c
     <> Throw c').
Proof.
  apply (policies_always_on
           (world.World
              (set_ref_counter 2 (new_cell 8))
              [mem_buffer.set_position 2 mem_buffer.initial;
               copy_of (mem_buffer.set_position 2 mem_buffer.initial)])).
  - eapply world.reachable_step.
    + eapply world.reachable_step.
      * apply (world.reachable_construct 8 mem_buffer.initial (new_cell 8));
          [by_computation|reflexivity].
      * apply (world.step_call 0 (world.set_position 2)
                 mem_buffer.initial
                 (mem_buffer.set_position 2 mem_buffer.initial)
                 (new_cell 8)); reflexivity.
    + apply (world.step_copy 0
               (mem_buffer.set_position 2 mem_buffer.initial)
               (copy_of (mem_buffer.set_position 2 mem_buffer.initial))
               (set_ref_counter 2 (new_cell 8))
               (world.World (new_cell 8)
                  [mem_buffer.set_position 2 mem_buffer.initial]));
        reflexivity.
  - apply elem_of_cons. right. apply elem_of_cons. left. reflexivity.
Defined.

(** ** The cell between member calls *)

Lemma expand_keeps_sized {Al : Allocator} h c r c' :
  sized c -> mem_buffer.expand h c = Ret r c' ->
  sized c' /\ same_bookkeeping c c'.
Proof.
  intros (Hsz & Hcap). unfold mem_buffer.expand, bind, get_cell, ret, put_cell.
  destruct (_ && _).
  - destruct (alloc _) as [p|] eqn:Hp; [|discriminate].
    rewrite (memset_block p _ (alloc_size _ _ Hp)). simpl.
    destruct (alive c) eqn:Hal; [|discriminate].
    destruct (memcpy _ _ _ _ _) as [s|] eqn:Hm; simpl; [|discriminate].
    intros [= _ <-]. apply size_memcpy in Hm.
    pose proof (wrap_is_size_t
                  (capacity c + mem_buffer.single_expand_size h)) as Hw.
    destruct c as [st cap rc lk al rel].
    unfold sized, same_bookkeeping. simpl in *.
    rewrite Hm, size_zeroed by apply Hw. repeat split; apply Hw.
  - intros [= _ <-]. split; [split; assumption|repeat split].
Qed.

Lemma read_at_keeps_cell h dst len off c r c' :
  wf_cell c -> mem_buffer.read_at h dst len off c = Ret r c' -> c' = c.
Proof.
  intros (Hal & Hlk & _). open_cell c. subst al lk.
  unfold mem_buffer.read_at, bind, get_cell, ret. simpl.
  destruct (cap <? wrap (len + off)); [congruence|].
  unfold mutex_lock, load, bind, get_cell. simpl.
  destruct (memcpy _ _ _ _ _); simpl; [|discriminate].
  intros [= _ <-]. reflexivity.
Qed.

Lemma write_at_keeps_wf {Al : Allocator} h src len off c r c' :
  wf_cell c -> mem_buffer.write_at h src len off c = Ret r c' ->
  wf_cell c' /\ ref_counter c' = ref_counter c /\ releases c' = releases c.
Proof.
  intros (Hal & Hlk & Hsz).
  assert (Hstore : forall c0 c1,
            alive c0 = true -> locked c0 = true -> sized c0 ->
            (store src len off;;; mutex_unlock;;; ret true) c0 = Ret r c1 ->
            wf_cell c1 /\ ref_counter c1 = ref_counter c0 /\
            releases c1 = releases c0).
  { intros c0 c1 Hal0 Hlk0 (Hsz0 & Hcap0).
    unfold store, bind, get_cell, put_cell, mutex_unlock, ret.
    rewrite Hal0. destruct (memcpy _ _ _ _ _) as [s|] eqn:Hm; [|discriminate].
    apply size_memcpy in Hm. destruct c0 as [st cap rc lk al rel].
    simpl in *. subst al lk. simpl. intros [= _ <-].
    unfold wf_cell, sized. simpl. rewrite Hm. tauto. }
  unfold mem_buffer.write_at, bind at 1, mutex_lock. rewrite Hal, Hlk. simpl.
  unfold bind at 1, get_cell. unfold bind at 1.
  destruct (capacity (set_locked true c) <? wrap (len + off)).
  - destruct (mem_buffer.enable_auto_expand h); [|discriminate].
    unfold bind at 1.
    destruct (mem_buffer.expand h (set_locked true c)) as [b c0| |] eqn:He;
      try discriminate.
    apply expand_keeps_sized in He as (Hsz0 & Hrc0 & Hlk0 & Hal0 & Hrel0);
      [|destruct c; exact Hsz].
    unfold ret at 1. intros Hrun.
    apply Hstore in Hrun as (Hwf1 & Hrc1 & Hrel1).
    + destruct c; simpl in *. repeat split; try apply Hwf1; congruence.
    + destruct c; simpl in *. congruence.
    + destruct c; simpl in *. congruence.
    + exact Hsz0.
  - unfold ret at 1. intros Hrun.
    apply Hstore in Hrun as (Hwf1 & Hrc1 & Hrel1).
    + destruct c; simpl in *. repeat split; try apply Hwf1; congruence.
    + destruct c; exact Hal.
    + reflexivity.
    + destruct c; exact Hsz.
Qed.

Lemma run_keeps_wf {Al : Allocator} o h c h' c' :
  wf_cell c -> world.run o h c = Ret h' c' ->
  wf_cell c' /\ ref_counter c' = ref_counter c /\ releases c' = releases c.
Proof.
  intros Hwf.
  assert (Hread : forall dst len off r c1,
            mem_buffer.read_at h dst len off c = Ret r c1 ->
            wf_cell c1 /\ ref_counter c1 = ref_counter c /\
            releases c1 = releases c).
  { intros dst len off r c1 H.
    apply read_at_keeps_cell in H; [|exact Hwf]. subst c1. tauto. }
  destruct o; simpl; unfold bind, ret.
  - destruct (mem_buffer.read_at _ _ _ _ c) eqn:E; try discriminate.
    intros [= _ <-]. eapply Hread, E.
  - unfold mem_buffer.read, bind, ret.
    destruct (mem_buffer.read_at _ _ _ _ c) eqn:E; try discriminate.
    intros [= _ <-]. eapply Hread, E.
  - destruct (mem_buffer.write_at _ _ _ _ c) eqn:E; try discriminate.
    intros [= _ <-]. eapply write_at_keeps_wf; eassumption.
  - unfold mem_buffer.write, bind, ret.
    destruct (mem_buffer.write_at _ _ _ _ c) eqn:E; try discriminate.
    intros [= _ <-]. eapply write_at_keeps_wf; eassumption.
  - unfold mem_buffer.write_value, mem_buffer.write, bind, ret.
    destruct (mem_buffer.write_at _ _ _ _ c) eqn:E; try discriminate.
    intros [= _ <-]. eapply write_at_keeps_wf; eassumption.
  - unfold mem_buffer.read_value, mem_buffer.read, bind, ret.
    destruct (mem_buffer.read_at _ _ _ _ c) eqn:E; try discriminate.
    intros [= _ <-]. eapply Hread, E.
  - intros [= _ <-]. tauto.
  - intros [= _ <-]. tauto.
  - intros [= _ <-]. tauto.
  - destruct (mem_buffer.expand _ c) eqn:E; try discriminate.
    intros [= _ <-]. destruct Hwf as (Hal & Hlk & Hsz).
    apply expand_keeps_sized in E as (Hsz0 & Hrc0 & Hlk0 & Hal0 & Hrel0);
      [|exact Hsz].
    unfold wf_cell. repeat split; try apply Hsz0; congruence.
Qed.

Lemma read_at_does_not_throw h dst len off c c' :
  mem_buffer.read_at h dst len off c <> Throw c'.
Proof.
  unfold mem_buffer.read_at, bind, get_cell, ret.
  destruct (capacity c <? wrap (len + off)); [discriminate|].
  unfold mutex_lock. destruct (alive c && negb (locked c)); [|discriminate].
  unfold load, bind, get_cell, mutex_unlock.
  destruct (alive (set_locked true c)); [|discriminate].
  destruct (memcpy _ _ _ _ _); simpl; [|discriminate].
  destruct (_ && _); discriminate.
Qed.

(** On a handle with both flags set no member call throws. *)
Lemma run_does_not_throw {Al : Allocator} o h c c' :
  policies_on h -> world.run o h c <> Throw c'.
Proof.
  intros Hp.
  pose proof (fun src len off =>
                write_at_does_not_throw h src len off c c' (proj2 Hp)) as Hw.
  pose proof (fun dst len off =>
                read_at_does_not_throw h dst len off c c') as Hr.
  pose proof (expand_not_refused h c) as _.
  destruct o; simpl; unfold bind, ret; try discriminate.
  - specialize (Hr dst len off).
    destruct (mem_buffer.read_at _ _ _ _ c); congruence.
  - unfold mem_buffer.read, bind, ret. specialize (Hr dst len (mem_buffer.pos h)).
    destruct (mem_buffer.read_at _ _ _ _ c); congruence.
  - specialize (Hw src len off).
    destruct (mem_buffer.write_at _ _ _ _ c); congruence.
  - unfold mem_buffer.write, bind, ret. specialize (Hw src len (mem_buffer.pos h)).
    destruct (mem_buffer.write_at _ _ _ _ c); congruence.
  - unfold mem_buffer.write_value, mem_buffer.write, bind, ret.
    specialize (Hw v (size v) (mem_buffer.pos h)).
    destruct (mem_buffer.write_at _ _ _ _ c); congruence.
  - unfold mem_buffer.read_value, mem_buffer.read, bind, ret.
    specialize (Hr v (size v) (mem_buffer.pos h)).
    destruct (mem_buffer.read_at _ _ _ _ c); congruence.
  - unfold mem_buffer.expand, bind, get_cell, put_cell, ret.
    destruct (_ && _); [|discriminate].
    destruct (alloc _); [|discriminate].
    destruct (memset _ _ _); simpl; [|discriminate].
    destruct (alive c); [|discriminate].
    destruct (memcpy _ _ _ _ _); simpl; discriminate.
Qed.

(** Every reachable state satisfies [world_invariant]. *)
Lemma reachable_invariant {Al : Allocator} w : world.reachable w -> world_invariant w.
Proof.
  induction 1 as [n h c Hn Hc|w w' Hw IH Hstep].
  - apply construct_built in Hc as (-> & ->).
    unfold world_invariant. simpl. split; [reflexivity|].
    split; [apply Forall_cons; split; [split; reflexivity|apply Forall_nil_2]|].
    split; [|reflexivity]. unfold wf_cell, sized, is_size_t. simpl.
    rewrite size_zeroed by lia. repeat split; lia.
  - pose proof (reachable_policies _ (world.reachable_step _ _ Hw Hstep)) as Hpol.
    destruct IH as (Hrc & Hall & Hshape).
    destruct Hstep as [i o h h' c' w Hi Hrun|i o h c' w Hi Hrun
                      |i h h' c' w Hi Hcopy|i h c' w Hi Hd];
      unfold world_invariant; simpl in *.
    + destruct (world.handles w) as [|h0 hs] eqn:Hhs; [discriminate|].
      destruct Hshape as (Hwf & Hrel).
      apply run_keeps_wf in Hrun as (Hwf' & Hrc' & Hrel'); [|exact Hwf].
      rewrite length_insert. split; [congruence|]. split; [exact Hpol|].
      destruct (<[i:=h']> (h0 :: hs)) eqn:Hins.
      * apply (f_equal length) in Hins. rewrite length_insert in Hins.
        discriminate.
      * split; [exact Hwf'|congruence].
    + exfalso. eapply run_does_not_throw; [|exact Hrun].
      exact (Forall_lookup_1 _ _ _ _ Hall Hi).
    + destruct (world.handles w) as [|h0 hs] eqn:Hhs; [discriminate|].
      destruct Hshape as (Hwf & Hrel).
      destruct (Z.lt_ge_cases (ref_counter (world.shared w)) INT_MAX) as [Hlt|Hge].
      * rewrite copy_in_range in Hcopy by assumption.
        injection Hcopy as <- <-. rewrite length_app. simpl.
        split; [simpl in Hrc; lia|]. split; [exact Hpol|].
        split; [apply wf_cell_set_ref_counter, Hwf|exact Hrel].
      * exfalso. eapply copy_overflow; eassumption.
    + pose proof (Forall_lookup_1 _ _ _ _ Hall Hi) as Hh.
      pose proof (lookup_lt_Some _ _ _ Hi) as Hlt.
      pose proof (length_delete (world.handles w) i (ex_intro _ h Hi)) as Hlen.
      destruct (world.handles w) as [|h0 hs] eqn:Hhs; [discriminate|].
      destruct Hshape as (Hwf & Hrel). cbn [length] in Hrc, Hlen, Hlt.
      rewrite destroy_in_range in Hd
        by (try assumption; unfold INT_MIN; lia).
      rewrite (proj1 Hh), andb_true_r in Hd.
      split; [|split; [exact Hpol|]].
      * rewrite Hlen. injection Hd as <-.
        destruct (Z.eqb_spec (ref_counter (world.shared w)) 1) as [E|E];
          simpl in *; lia.
      * destruct (delete i (h0 :: hs)) as [|h1 hs1] eqn:Hdel;
          injection Hd as <-; cbn [length] in Hlen.
        -- replace (ref_counter (world.shared w) =? 1) with true
             by (symmetry; apply Z.eqb_eq; lia).
           simpl. rewrite Hrel. split; reflexivity.
        -- replace (ref_counter (world.shared w) =? 1) with false
             by (symmetry; apply Z.eqb_neq; lia).
           split; [apply wf_cell_set_ref_counter, Hwf|exact Hrel].
Qed.

(** * Further properties *)

(** ** Bytes of a block *)

Lemma slice_lookup (b : block) off n k :
  slice b off n !! k
  = if decide (k < Z.to_nat n)%nat then b !! (Z.to_nat off + k)%nat else None.
Proof.
  unfold slice, block in *. rewrite lookup_take. case_decide; [|reflexivity].
  apply lookup_drop.
Qed.

(** Two blocks that agree on a range have the same slice there. *)
Lemma slice_ext (a b : block) off n :
  0 <= off -> 0 <= n ->
  (forall i, (Z.to_nat off <= i < Z.to_nat (off + n))%nat -> a !! i = b !! i) ->
  slice a off n = slice b off n.
Proof.
  intros Ho Hn H. apply list_eq. intros k. rewrite !slice_lookup.
  case_decide; [|reflexivity]. apply H. lia.
Qed.

(** Outside the range that was stored a block is as it was. *)
Lemma stored_lookup_outside (st mid : block) off len i :
  0 <= off -> size mid = len -> off + len <= size st ->
  (i < Z.to_nat off \/ Z.to_nat (off + len) <= i)%nat ->
  (take (Z.to_nat off) st ++ mid ++ drop (Z.to_nat (off + len)) st) !! i
  = st !! i.
Proof.
  intros Ho Hm Hst Hi. unfold size, block in *.
  assert (Hlt : length (take (Z.to_nat off) st) = Z.to_nat off)
    by (rewrite length_take; lia).
  destruct Hi as [Hi|Hi].
  - rewrite lookup_app_l by lia. apply lookup_take_lt. exact Hi.
  - rewrite lookup_app_r by lia. rewrite lookup_app_r by lia.
    rewrite lookup_drop. f_equal. lia.
Qed.


Lemma slice_app_split (b : block) off n m :
  0 <= off -> 0 <= n -> 0 <= m ->
  slice b off (n + m) = slice b off n ++ slice b (off + n) m.
Proof.
  intros Ho Hn Hm. unfold slice.
  rewrite Z2Nat.inj_add by lia.
  rewrite <- take_take_drop. f_equal.
  rewrite drop_drop. rewrite Z2Nat.inj_add by lia. reflexivity.
Qed.

Lemma slice_zeroed n off len :
  0 <= off -> 0 <= len -> off + len <= n ->
  slice (zeroed n) off len = zeroed len.
Proof.
  intros Ho Hl Hn. unfold slice, zeroed.
  rewrite drop_replicate, take_replicate. f_equal. lia.
Qed.

Lemma slice_whole (b : block) n : n = size b -> slice b 0 n = b.
Proof. intros ->. apply slice_all. Qed.

Lemma slice_app_l (a b : block) off n :
  0 <= off -> 0 <= n -> off + n <= size a ->
  slice (a ++ b) off n = slice a off n.
Proof.
  intros Ho Hn Ha. apply slice_ext; try assumption.
  intros i Hi. unfold block in *. apply lookup_app_l. unfold size in Ha. lia.
Qed.

(** ** Construction and the life of a buffer *)

(** X1.  The constructor throws when the allocator answers [nullptr].
    When the allocator answers and the capacity asked for is below
    [sizeof(char * )], the store of [*ptr] leaves the block [ptr], which
    has only [capacity] bytes: undefined behaviour, as the class comment
    says of capacity 0.  From [sizeof(char * )] on it builds a handle at
    position 0 with both policy flags set and the default increment of
    16 KiB, on a live cell of the capacity asked for whose block has that
    size, counted once, never released and with the mutex as it was handed
    in; if nobody holds that mutex the cell is well formed and every read
    within the capacity, through any handle, delivers zero bytes. *)
Theorem construct_zero_filled {Al : Allocator} (n : Z) (mutex : bool) :
  is_size_t n ->
  (alloc n = None -> mem_buffer.construct n mutex = mem_buffer.Thrown) /\
  (is_Some (alloc n) -> n < sizeof_pointer ->
   mem_buffer.construct n mutex = mem_buffer.Unspecified) /\
  (is_Some (alloc n) -> sizeof_pointer <= n ->
   exists h c,
     mem_buffer.construct n mutex = mem_buffer.Built h c /\
     mem_buffer.position h = 0 /\ policies_on h /\
     mem_buffer.auto_expand_size h = 16 * 1024 /\
     capacity c = n /\ ref_counter c = 1 /\ releases c = 0%nat /\
     alive c = true /\ locked c = mutex /\ sized c /\
     (mutex = false ->
      wf_cell c /\
      forall g dst len off,
        0 <= off -> 0 <= len -> off + len <= n -> len <= size dst ->
        mem_buffer.read_at g dst len off c
        = Ret (true, zeroed len ++ drop (Z.to_nat len) dst) c)).
Proof.
  intros Hn. split; [|split].
  - intros Hnone. unfold mem_buffer.construct. rewrite Hnone. reflexivity.
  - intros Hsome Hsmall. apply construct_too_small; assumption.
  - intros Hsome Hfits.
    assert (Hsized : sized (Cell (zeroed n) n 1 mutex true 0)).
    { unfold sized. simpl. split; [apply size_zeroed, Hn|exact Hn]. }
    exists mem_buffer.initial, (Cell (zeroed n) n 1 mutex true 0).
    split; [apply construct_granted; assumption|].
    split; [reflexivity|]. split; [split; reflexivity|].
    do 6 (split; [reflexivity|]).
    split; [exact Hsized|].
    intros ->.
    assert (Hwf : wf_cell (Cell (zeroed n) n 1 false true 0)).
    { split; [reflexivity|]. split; [reflexivity|exact Hsized]. }
    split; [exact Hwf|].
    intros g dst len off Ho Hl Hr Hd.
    rewrite read_at_in_range by assumption.
    simpl. rewrite slice_zeroed by lia. reflexivity.
Qed.

Lemma construct_zero_filled_witness :
  mem_buffer.construct 7 new_mutex = mem_buffer.Unspecified /\
  exists h c,
    mem_buffer.construct 8 new_mutex = mem_buffer.Built h c /\
    mem_buffer.position h = 0 /\ policies_on h /\
    mem_buffer.auto_expand_size h = 16 * 1024 /\
    capacity c = 8 /\ ref_counter c = 1 /\ releases c = 0%nat /\
    alive c = true /\ locked c = new_mutex /\ sized c /\
    (new_mutex = false ->
     wf_cell c /\
     forall g dst len off,
       0 <= off -> 0 <= len -> off + len <= 8 -> len <= size dst ->
       mem_buffer.read_at g dst len off c
       = Ret (true, zeroed len ++ drop (Z.to_nat len) dst) c).
Proof.
  split.
  - apply (proj1 (proj2 (construct_zero_filled 7 new_mutex
                           ltac:(by_computation)))).
    + eexists. reflexivity.
    + reflexivity.
  - apply (proj2 (proj2 (construct_zero_filled 8 new_mutex
                           ltac:(by_computation)))).
    + eexists. reflexivity.
    + discriminate.
Defined.

(** X2.  In every state reached from a construction by member calls,
    copies and destructions, the counter is the number of handles that are
    alive; while one is alive the cell is well formed and was never
    released; once none is left the cell was released exactly once. *)
Theorem counter_counts_live_handles {Al : Allocator} (w : world.t) :
  world.reachable w ->
  ref_counter (world.shared w) = Z.of_nat (length (world.handles w)) /\
  (world.handles w <> [] ->
   wf_cell (world.shared w) /\ releases (world.shared w) = 0%nat) /\
  (world.handles w = [] ->
   alive (world.shared w) = false /\ releases (world.shared w) = 1%nat).
Proof.
  intros Hw. destruct (reachable_invariant w Hw) as (Hrc & _ & Hshape).
  split; [exact Hrc|].
  destruct (world.handles w) as [|h hs]; split; try done.
Qed.

Lemma counter_counts_live_handles_witness :
  ref_counter (set_ref_counter 2 (new_cell 8)) = Z.of_nat 2 /\
  ([mem_buffer.initial; copy_of mem_buffer.initial] <> [] ->
   wf_cell (set_ref_counter 2 (new_cell 8)) /\
   releases (set_ref_counter 2 (new_cell 8)) = 0%nat) /\
  ([mem_buffer.initial; copy_of mem_buffer.initial] = [] ->
   alive (set_ref_counter 2 (new_cell 8)) = false /\
   releases (set_ref_counter 2 (new_cell 8)) = 1%nat).
Proof.
  apply (counter_counts_live_handles
           (world.World (set_ref_counter 2 (new_cell 8))
              [mem_buffer.initial; copy_of mem_buffer.initial])).
  eapply world.reachable_step.
  - apply (world.reachable_construct 8 mem_buffer.initial (new_cell 8));
      [by_computation|reflexivity].
  - apply (world.step_copy 0 mem_buffer.initial (copy_of mem_buffer.initial)
             (set_ref_counter 2 (new_cell 8))
             (world.World (new_cell 8) [mem_buffer.initial]));
      reflexivity.
Defined.

Lemma expand_capacity {Al : Allocator} h c r c' :
  mem_buffer.expand h c = Ret r c' -> capacity c <= capacity c'.
Proof.
  unfold mem_buffer.expand, bind, get_cell, ret, put_cell.
  destruct (_ && _); [|intros [= _ <-]; lia].
  destruct (alloc _) as [p|] eqn:Hp; [|discriminate].
  rewrite (memset_block p _ (alloc_size _ _ Hp)). simpl.
  destruct (alive c); [|discriminate].
  destruct (memcpy _ _ _ _ _) as [s|] eqn:Hm; simpl; [|discriminate].
  intros [= _ <-]. simpl.
  unfold memcpy in Hm.
  destruct (in_block (zeroed _) 0 (capacity c)) eqn:Hin; [|discriminate].
  apply in_block_spec in Hin as (_ & Hc & Hfit).
  rewrite size_zeroed in Hfit by apply wrap_is_size_t. lia.
Qed.

Lemma write_at_capacity {Al : Allocator} h src len off c r c' :
  mem_buffer.write_at h src len off c = Ret r c' -> capacity c <= capacity c'.
Proof.
  assert (Hstore : forall c0 c1,
            (store src len off;;; mutex_unlock;;; ret true) c0 = Ret r c1 ->
            capacity c1 = capacity c0).
  { intros c0 c1. unfold store, bind, get_cell, put_cell, mutex_unlock, ret.
    destruct (alive c0); [|discriminate].
    destruct (memcpy _ _ _ _ _); simpl; [|discriminate].
    destruct (alive c0 && locked c0); [|discriminate].
    intros [= _ <-]. reflexivity. }
  unfold mem_buffer.write_at, bind at 1, mutex_lock.
  destruct (alive c && negb (locked c)); [|discriminate].
  unfold bind at 1, get_cell. unfold bind at 1.
  destruct (capacity (set_locked true c) <? wrap (len + off)).
  - destruct (mem_buffer.enable_auto_expand h); [|discriminate].
    unfold bind at 1.
    destruct (mem_buffer.expand h (set_locked true c)) as [b c0| |] eqn:He;
      try discriminate.
    apply expand_capacity in He. unfold ret at 1. intros Hrun.
    apply Hstore in Hrun. simpl in He. lia.
  - unfold ret at 1. intros Hrun. apply Hstore in Hrun. simpl in Hrun. lia.
Qed.

Lemma run_capacity {Al : Allocator} o h c h' c' :
  wf_cell c -> world.run o h c = Ret h' c' -> capacity c <= capacity c'.
Proof.
  intros Hwf.
  assert (Hread : forall dst len off r c1,
            mem_buffer.read_at h dst len off c = Ret r c1 ->
            capacity c <= capacity c1).
  { intros dst len off r c1 H.
    apply read_at_keeps_cell in H; [|exact Hwf]. subst c1. lia. }
  destruct o; simpl; unfold bind, ret.
  - destruct (mem_buffer.read_at _ _ _ _ c) eqn:E; try discriminate.
    intros [= _ <-]. eapply Hread, E.
  - unfold mem_buffer.read, bind, ret.
    destruct (mem_buffer.read_at _ _ _ _ c) eqn:E; try discriminate.
    intros [= _ <-]. eapply Hread, E.
  - destruct (mem_buffer.write_at _ _ _ _ c) eqn:E; try discriminate.
    intros [= _ <-]. eapply write_at_capacity, E.
  - unfold mem_buffer.write, bind, ret.
    destruct (mem_buffer.write_at _ _ _ _ c) eqn:E; try discriminate.
    intros [= _ <-]. eapply write_at_capacity, E.
  - unfold mem_buffer.write_value, mem_buffer.write, bind, ret.
    destruct (mem_buffer.write_at _ _ _ _ c) eqn:E; try discriminate.
    intros [= _ <-]. eapply write_at_capacity, E.
  - unfold mem_buffer.read_value, mem_buffer.read, bind, ret.
    destruct (mem_buffer.read_at _ _ _ _ c) eqn:E; try discriminate.
    intros [= _ <-]. eapply Hread, E.
  - intros [= _ <-]. lia.
  - intros [= _ <-]. lia.
  - intros [= _ <-]. lia.
  - destruct (mem_buffer.expand _ c) eqn:E; try discriminate.
    intros [= _ <-]. eapply expand_capacity, E.
Qed.

(** When [capacity + single_expand_size] does not fit [size_t] the sum
    wraps to a value below the capacity: [expand()] asks for a block of that
    lower size and then copies [capacity] bytes into it. *)
Lemma expand_overflow {Al : Allocator} h c :
  policies_on h -> is_size_t (capacity c) ->
  is_size_t (mem_buffer.single_expand_size h) ->
  size_modulus <= capacity c + mem_buffer.single_expand_size h ->
  wrap (capacity c + mem_buffer.single_expand_size h) < capacity c /\
  mem_buffer.expand h c = Undefined.
Proof.
  intros (Har & Hae) Hc Hs Hov. unfold is_size_t in *.
  assert (Hw : wrap (capacity c + mem_buffer.single_expand_size h)
               = capacity c + mem_buffer.single_expand_size h - size_modulus).
  { unfold wrap. symmetry. apply Z.mod_unique_pos with (q := 1); lia. }
  split; [lia|].
  unfold mem_buffer.expand, bind, get_cell. rewrite Har, Hae. simpl.
  destruct (alloc _) as [p|] eqn:Hp; [|reflexivity].
  unfold defined. rewrite (memset_block p _ (alloc_size _ _ Hp)).
  unfold ret at 1. destruct (alive c); [|reflexivity].
  rewrite memcpy_outside_dst; [reflexivity|].
  rewrite size_zeroed by lia. lia.
Qed.

Lemma write_at_overflow {Al : Allocator} h src len off c :
  policies_on h -> wf_cell c ->
  is_size_t (mem_buffer.single_expand_size h) ->
  size_modulus <= capacity c + mem_buffer.single_expand_size h ->
  capacity c < wrap (len + off) ->
  mem_buffer.write_at h src len off c = Undefined.
Proof.
  intros Hp (Hal & Hlk & Hsz & Hcap) Hs Hov Hr.
  destruct (expand_overflow h (set_locked true c) Hp Hcap Hs Hov) as (_ & He).
  open_cell c. subst al lk.
  unfold mem_buffer.write_at, bind, mutex_lock, get_cell, set_locked. simpl.
  apply Z.ltb_lt in Hr. rewrite Hr.
  destruct Hp as (_ & Hae). rewrite Hae, He. reflexivity.
Qed.

(** X3.  No step of a reachable buffer lowers its capacity: a member call
    that returns, a copy and a destruction leave it as it was or larger.
    The one call whose arithmetic would lower it is growth where
    [capacity + single_expand_size] does not fit [size_t]: the sum wraps to
    a value below the capacity, and [expand()], and with it every [write]
    whose bounds test fires, is then undefined behaviour through every live
    handle with such an increment, because [memcpy] copies [capacity] bytes
    into the smaller new block; so that call is no step. *)
Theorem capacity_lowered_only_by_overflow {Al : Allocator} (w : world.t) :
  world.reachable w ->
  (forall w', world.step w w' ->
     capacity (world.shared w) <= capacity (world.shared w')) /\
  (forall h,
     h ∈ world.handles w ->
     is_size_t (mem_buffer.auto_expand_size h) ->
     size_modulus <= capacity (world.shared w) + mem_buffer.auto_expand_size h ->
     wrap (capacity (world.shared w) + mem_buffer.auto_expand_size h)
     < capacity (world.shared w) /\
     mem_buffer.expand h (world.shared w) = Undefined /\
     forall src len off,
       capacity (world.shared w) < wrap (len + off) ->
       mem_buffer.write_at h src len off (world.shared w) = Undefined).
Proof.
  intros Hw. destruct (reachable_invariant w Hw) as (Hrc & Hall & Hshape).
  split.
  - intros w' Hstep.
    destruct Hstep as [i o h h' c' w Hi Hrun|i o h c' w Hi Hrun
                      |i h h' c' w Hi Hcopy|i h c' w Hi Hd]; simpl.
    + destruct (world.handles w) as [|h0 hs]; [discriminate|].
      eapply run_capacity; [apply Hshape|exact Hrun].
    + exfalso. eapply run_does_not_throw; [|exact Hrun].
      exact (Forall_lookup_1 _ _ _ _ Hall Hi).
    + destruct (world.handles w) as [|h0 hs]; [discriminate|].
      destruct Hshape as (Hwf & _).
      destruct (Z.lt_ge_cases (ref_counter (world.shared w)) INT_MAX)
        as [Hlt|Hge].
      * rewrite copy_in_range in Hcopy by assumption.
        injection Hcopy as _ <-. destruct (world.shared w); simpl; lia.
      * exfalso. eapply copy_overflow; eassumption.
    + pose proof (lookup_lt_Some _ _ _ Hi) as Hlt.
      destruct (world.handles w) as [|h0 hs]; [discriminate|].
      destruct Hshape as (Hwf & _). cbn [length] in Hrc.
      rewrite destroy_in_range in Hd by (try assumption; unfold INT_MIN; lia).
      injection Hd as <-.
      destruct (_ && _); destruct (world.shared w); simpl; lia.
  - intros h Hh Hs Hov. unfold mem_buffer.auto_expand_size in *.
    assert (Hp : policies_on h).
    { rewrite Forall_forall in Hall. apply Hall, Hh. }
    destruct (world.handles w) as [|h0 hs]; [inversion Hh|].
    destruct Hshape as (Hwf & _).
    destruct (expand_overflow h (world.shared w) Hp (proj2 (proj2 (proj2 Hwf)))
                Hs Hov) as (Hlow & He).
    split; [exact Hlow|]. split; [exact He|].
    intros src len off Hr. apply write_at_overflow; assumption.
Qed.

Lemma capacity_lowered_only_by_overflow_witness :
  capacity (set_ref_counter 2 (new_cell 8))
  <= capacity (set_capacity 16
                 (set_storage (zeroed 16) (set_ref_counter 2 (new_cell 8)))) /\
  wrap (8 + (size_modulus - 1)) < 8 /\
  mem_buffer.expand
    (mem_buffer.set_auto_expand_size (size_modulus - 1)
       (copy_of (mem_buffer.set_auto_expand_size 8 mem_buffer.initial)))
    (set_ref_counter 2 (new_cell 8)) = Undefined /\
  forall src len off,
    8 < wrap (len + off) ->
    mem_buffer.write_at
      (mem_buffer.set_auto_expand_size (size_modulus - 1)
         (copy_of (mem_buffer.set_auto_expand_size 8 mem_buffer.initial)))
      src len off (set_ref_counter 2 (new_cell 8)) = Undefined.
Proof.
  destruct (capacity_lowered_only_by_overflow
              (world.World (set_ref_counter 2 (new_cell 8))
                 [mem_buffer.set_auto_expand_size 8 mem_buffer.initial;
                  mem_buffer.set_auto_expand_size (size_modulus - 1)
                    (copy_of (mem_buffer.set_auto_expand_size 8
                                mem_buffer.initial))]))
    as [Hstep Hwrap].
  - eapply world.reachable_step.
    + eapply world.reachable_step.
      * eapply world.reachable_step.
        -- apply (world.reachable_construct 8 mem_buffer.initial (new_cell 8));
             [by_computation|reflexivity].
        -- apply (world.step_call 0 (world.set_auto_expand_size 8)
                    mem_buffer.initial
                    (mem_buffer.set_auto_expand_size 8 mem_buffer.initial)
                    (new_cell 8)
                    (world.World (new_cell 8) [mem_buffer.initial]));
             reflexivity.
      * apply (world.step_copy 0
                 (mem_buffer.set_auto_expand_size 8 mem_buffer.initial)
                 (copy_of (mem_buffer.set_auto_expand_size 8 mem_buffer.initial))
                 (set_ref_counter 2 (new_cell 8))
                 (world.World (new_cell 8)
                    [mem_buffer.set_auto_expand_size 8 mem_buffer.initial]));
          reflexivity.
    + apply (world.step_call 1 (world.set_auto_expand_size (size_modulus - 1))
               (copy_of (mem_buffer.set_auto_expand_size 8 mem_buffer.initial))
               (mem_buffer.set_auto_expand_size (size_modulus - 1)
                  (copy_of (mem_buffer.set_auto_expand_size 8
                              mem_buffer.initial)))
               (set_ref_counter 2 (new_cell 8))
               (world.World (set_ref_counter 2 (new_cell 8))
                  [mem_buffer.set_auto_expand_size 8 mem_buffer.initial;
                   copy_of (mem_buffer.set_auto_expand_size 8
                              mem_buffer.initial)]));
        reflexivity.
  - split.
    + apply (Hstep
               (world.World
                  (set_capacity 16
                     (set_storage (zeroed 16)
                        (set_ref_counter 2 (new_cell 8))))
                  [mem_buffer.set_auto_expand_size 8 mem_buffer.initial;
                   mem_buffer.set_auto_expand_size (size_modulus - 1)
                     (copy_of (mem_buffer.set_auto_expand_size 8
                                 mem_buffer.initial))])).
      apply (world.step_call 0 world.expand
               (mem_buffer.set_auto_expand_size 8 mem_buffer.initial)
               (mem_buffer.set_auto_expand_size 8 mem_buffer.initial)
               (set_capacity 16
                  (set_storage (zeroed 16) (set_ref_counter 2 (new_cell 8)))));
        reflexivity.
    + apply (Hwrap
               (mem_buffer.set_auto_expand_size (size_modulus - 1)
                  (copy_of (mem_buffer.set_auto_expand_size 8
                              mem_buffer.initial)))).
      * apply elem_of_cons. right. apply elem_of_cons. left. reflexivity.
      * by_computation.
      * vm_compute. discriminate.
Defined.

(** ** Writes and the bytes around them *)

Lemma wf_cell_after_store (st : block) off (mid : block) len c :
  wf_cell c -> st = storage c -> 0 <= off -> size mid = len ->
  off + len <= size st ->
  wf_cell (set_storage (take (Z.to_nat off) st ++ mid
                          ++ drop (Z.to_nat (off + len)) st) c).
Proof.
  intros Hwf -> Ho Hm Hfit. apply wf_cell_set_storage; [exact Hwf|].
  pose proof (size_nonneg mid).
  rewrite !size_app, size_take, size_drop by lia. lia.
Qed.

(** X4.  A write within the capacity leaves every byte outside its range
    as it was: a read of any range that lies within the capacity and does
    not meet the written range, through any handle, returns true and
    delivers the bytes that were there before the write. *)
Theorem write_leaves_other_bytes {Al : Allocator}
    (h g : mem_buffer.t) (c : cell) (src dst : block) (len off len2 off2 : Z) :
  wf_cell c ->
  0 <= off -> 0 <= len -> off + len <= capacity c -> len <= size src ->
  0 <= off2 -> 0 <= len2 -> off2 + len2 <= capacity c -> len2 <= size dst ->
  off2 + len2 <= off \/ off + len <= off2 ->
  exists c',
    mem_buffer.write_at h src len off c = Ret true c' /\
    mem_buffer.read_at g dst len2 off2 c'
    = Ret (true, slice (storage c) off2 len2 ++ drop (Z.to_nat len2) dst) c'.
Proof.
  intros Hwf Ho Hl Hr Hs Ho2 Hl2 Hr2 Hd Hdis.
  assert (Hsz : size (storage c) = capacity c) by apply Hwf.
  eexists. split; [apply write_at_in_range; assumption|].
  rewrite read_at_in_range; try assumption.
  - do 2 f_equal. destruct c as [st cap rc lk al rel]. simpl in *.
    f_equal. apply slice_ext; try assumption.
    intros i Hi. apply stored_lookup_outside; try lia.
    apply size_slice; lia.
  - eapply wf_cell_after_store; try reflexivity; try assumption.
    + apply size_slice; lia.
    + lia.
Qed.

Lemma write_leaves_other_bytes_witness :
  exists c',
    mem_buffer.write_at mem_buffer.initial [x61; x62] 2 3 counting_cell
    = Ret true c' /\
    mem_buffer.read_at mem_buffer.initial [x00; x00; x00] 3 5 c'
    = Ret (true, [x06; x07; x08]) c'.
Proof.
  apply (write_leaves_other_bytes mem_buffer.initial mem_buffer.initial
           counting_cell [x61; x62] [x00; x00; x00] 2 3 3 5).
  - by_computation.
  - by_computation.
  - by_computation.
  - by_computation.
  - by_computation.
  - by_computation.
  - by_computation.
  - by_computation.
  - by_computation.
  - right. by_computation.
Defined.

(** X5.  Two writes at the cursor, one after the other, lay their bytes
    side by side: within the capacity both return true, the position ends
    [len1 + len2] bytes further, and the storage holds the first bytes
    followed by the second from the old position on; the capacity is as it
    was. *)
Theorem cursor_writes_append {Al : Allocator}
    (h : mem_buffer.t) (c : cell) (src1 src2 : block) (len1 len2 : Z) :
  wf_cell c -> 0 <= mem_buffer.pos h -> 0 <= len1 -> 0 <= len2 ->
  mem_buffer.pos h + len1 + len2 <= capacity c ->
  len1 <= size src1 -> len2 <= size src2 ->
  exists h1 c1 h2 c2,
    mem_buffer.write h src1 len1 c = Ret (true, h1) c1 /\
    mem_buffer.write h1 src2 len2 c1 = Ret (true, h2) c2 /\
    mem_buffer.position h2 = mem_buffer.pos h + len1 + len2 /\
    slice (storage c2) (mem_buffer.pos h) (len1 + len2)
    = slice src1 0 len1 ++ slice src2 0 len2 /\
    capacity c2 = capacity c.
Proof.
  intros Hwf Hp Hl1 Hl2 Hr Hs1 Hs2.
  assert (Hsz : size (storage c) = capacity c) by apply Hwf.
  assert (Hcap : is_size_t (capacity c)) by apply Hwf.
  unfold is_size_t in Hcap.
  set (p := mem_buffer.pos h) in *.
  set (st1 := take (Z.to_nat p) (storage c) ++ slice src1 0 len1
                ++ drop (Z.to_nat (p + len1)) (storage c)).
  assert (Hst1 : size st1 = capacity c).
  { unfold st1. rewrite !size_app, size_slice, size_take, size_drop by lia.
    lia. }
  assert (Hwf1 : wf_cell (set_storage st1 c)).
  { apply wf_cell_set_storage; [exact Hwf|lia]. }
  exists (mem_buffer.set_pos (p + len1) h), (set_storage st1 c).
  eexists _, _.
  split; [|split; [|split; [|split]]].
  - unfold mem_buffer.write, bind.
    rewrite write_at_in_range by (fold p; try assumption; lia).
    fold p. rewrite wrap_small by (unfold is_size_t; lia). reflexivity.
  - unfold mem_buffer.write, bind.
    rewrite write_at_in_range;
      try assumption; try (destruct c; simpl in *; lia).
    reflexivity.
  - simpl. rewrite wrap_small by (unfold is_size_t; lia). lia.
  - destruct c as [st cap rc lk al rel]. simpl in *.
    rewrite slice_app_split by lia. f_equal.
    + rewrite <- (slice_stored st src1 p len1) by lia.
      fold st1. apply slice_ext; try lia.
      intros i Hi. apply stored_lookup_outside; try lia.
      apply size_slice; lia.
    + apply slice_stored; lia.
  - destruct c; reflexivity.
Qed.

Lemma cursor_writes_append_witness :
  exists h1 c1 h2 c2,
    mem_buffer.write (mem_buffer.set_position 2 mem_buffer.initial)
      [x61; x62] 2 counting_cell = Ret (true, h1) c1 /\
    mem_buffer.write h1 [x63; x64; x65] 3 c1 = Ret (true, h2) c2 /\
    mem_buffer.position h2 = 7 /\
    slice (storage c2) 2 5 = [x61; x62; x63; x64; x65] /\
    capacity c2 = 8.
Proof.
  apply (cursor_writes_append (mem_buffer.set_position 2 mem_buffer.initial)
           counting_cell [x61; x62] [x63; x64; x65] 2 3).
  - by_computation.
  - by_computation.
  - by_computation.
  - by_computation.
  - by_computation.
  - by_computation.
  - by_computation.
Defined.

(** X6.  A value written at the cursor is read back from the same place:
    when its bytes fit within the capacity, [write(t)] returns true, and
    after the position is set back, [read(t)] into an object of the same
    size returns true and delivers the value; the position then stands
    behind the value. *)
Theorem typed_write_then_read {Al : Allocator}
    (h : mem_buffer.t) (c : cell) (v v0 : block) :
  wf_cell c -> 0 <= mem_buffer.pos h ->
  mem_buffer.pos h + size v <= capacity c -> size v0 = size v ->
  exists h1 c1 h2,
    mem_buffer.write_value h v c = Ret (true, h1) c1 /\
    mem_buffer.position h1 = mem_buffer.pos h + size v /\
    mem_buffer.read_value (mem_buffer.set_position (mem_buffer.pos h) h1) v0 c1
    = Ret (true, v, h2) c1 /\
    mem_buffer.position h2 = mem_buffer.pos h + size v.
Proof.
  intros Hwf Hp Hr Hv0.
  assert (Hsz : size (storage c) = capacity c) by apply Hwf.
  assert (Hcap : is_size_t (capacity c)) by apply Hwf.
  unfold is_size_t in Hcap. pose proof (size_nonneg v) as Hv.
  set (p := mem_buffer.pos h) in *.
  set (st1 := take (Z.to_nat p) (storage c) ++ slice v 0 (size v)
                ++ drop (Z.to_nat (p + size v)) (storage c)).
  assert (Hwf1 : wf_cell (set_storage st1 c)).
  { eapply wf_cell_after_store; try reflexivity; try assumption.
    - apply size_slice; lia.
    - lia. }
  exists (mem_buffer.set_pos (p + size v) h), (set_storage st1 c).
  eexists. split; [|split; [|split]].
  - unfold mem_buffer.write_value, mem_buffer.write, bind.
    rewrite write_at_in_range by (fold p; try assumption; lia).
    fold p. rewrite wrap_small by (unfold is_size_t; lia). reflexivity.
  - reflexivity.
  - unfold mem_buffer.read_value, mem_buffer.read, bind.
    rewrite Hv0.
    change (mem_buffer.pos (mem_buffer.set_position p _)) with p.
    rewrite read_at_in_range;
      try assumption; try (destruct c; simpl in *; lia).
    simpl. unfold st1. destruct c as [st cap rc lk al rel]. simpl in *.
    rewrite slice_stored by lia. rewrite slice_all.
    rewrite drop_ge by (unfold size in *; lia).
    rewrite app_nil_r. reflexivity.
  - simpl. rewrite wrap_small by (unfold is_size_t; lia). reflexivity.
Qed.

Lemma typed_write_then_read_witness :
  exists h1 c1 h2,
    mem_buffer.write_value (mem_buffer.set_position 4 mem_buffer.initial)
      [x0d; xf0; xad; xba] (new_cell 8) = Ret (true, h1) c1 /\
    mem_buffer.position h1 = 8 /\
    mem_buffer.read_value (mem_buffer.set_position 4 h1)
      [x00; x00; x00; x00] c1
    = Ret (true, [x0d; xf0; xad; xba], h2) c1 /\
    mem_buffer.position h2 = 8.
Proof.
  apply (typed_write_then_read (mem_buffer.set_position 4 mem_buffer.initial)
           (new_cell 8) [x0d; xf0; xad; xba] [x00; x00; x00; x00]).
  - by_computation.
  - by_computation.
  - by_computation.
  - reflexivity.
Defined.

Lemma write_at_growing {Al : Allocator} h src len off c :
  policies_on h -> wf_cell c ->
  0 <= mem_buffer.single_expand_size h ->
  is_Some (alloc (capacity c + mem_buffer.single_expand_size h)) ->
  capacity c + mem_buffer.single_expand_size h < size_modulus ->
  0 <= off -> 0 <= len -> len <= size src ->
  capacity c < off + len <= capacity c + mem_buffer.single_expand_size h ->
  mem_buffer.write_at h src len off c
  = Ret true
      (set_capacity (capacity c + mem_buffer.single_expand_size h)
         (set_storage
            (take (Z.to_nat off)
               (storage c ++ zeroed (mem_buffer.single_expand_size h))
             ++ slice src 0 len
             ++ drop (Z.to_nat (off + len))
                  (storage c ++ zeroed (mem_buffer.single_expand_size h)))
            c)).
Proof.
  intros Hp (Hal & Hlk & Hsz) Hinc Hblock Hfit Ho Hl Hs Hr.
  pose proof Hsz as (Hsz1 & Hcap).
  pose proof (expand_in_range h (set_locked true c) Hp Hal Hsz Hinc Hfit Hblock)
    as He.
  open_cell c. subst al lk.
  unfold mem_buffer.write_at, bind, mutex_lock, get_cell, set_locked. simpl.
  rewrite wrap_small by (unfold is_size_t in *; lia).
  replace (cap <? len + off) with true by (symmetry; apply Z.ltb_lt; lia).
  destruct Hp as (Har & Hae). rewrite Hae, He.
  unfold ret, store, bind, get_cell, mutex_unlock, put_cell, set_storage,
    set_locked. simpl.
  rewrite memcpy_defined; try lia.
  2:{ rewrite size_app, size_zeroed by lia. lia. }
  reflexivity.
Qed.

(** X7.  A write that ends beyond the capacity, but within one increment
    of it, grows the buffer by that increment and then stores its bytes:
    it returns true, the block holds the new capacity, the written range
    reads back as written, and every range within the old capacity that
    ends before the written range reads as it did before. *)
Theorem growing_write_keeps_old_bytes {Al : Allocator}
    (h g : mem_buffer.t) (c : cell) (src : block) (len off : Z) :
  policies_on h -> wf_cell c ->
  0 <= mem_buffer.single_expand_size h ->
  is_Some (alloc (capacity c + mem_buffer.single_expand_size h)) ->
  capacity c + mem_buffer.single_expand_size h < size_modulus ->
  0 <= off -> 0 <= len -> len <= size src ->
  capacity c < off + len <= capacity c + mem_buffer.single_expand_size h ->
  exists c',
    mem_buffer.write_at h src len off c = Ret true c' /\
    capacity c' = capacity c + mem_buffer.single_expand_size h /\
    wf_cell c' /\
    (forall dst, len <= size dst ->
       mem_buffer.read_at g dst len off c'
       = Ret (true, slice src 0 len ++ drop (Z.to_nat len) dst) c') /\
    (forall dst len2 off2,
       0 <= off2 -> 0 <= len2 -> off2 + len2 <= capacity c ->
       off2 + len2 <= off -> len2 <= size dst ->
       mem_buffer.read_at g dst len2 off2 c'
       = Ret (true, slice (storage c) off2 len2 ++ drop (Z.to_nat len2) dst)
             c').
Proof.
  intros Hp Hwf Hinc Hblock Hfit Ho Hl Hs Hr.
  pose proof Hwf as (Hal & Hlk & Hsz & Hcap). unfold is_size_t in Hcap.
  set (n := mem_buffer.single_expand_size h) in *.
  set (grown := storage c ++ zeroed n).
  assert (Hg : size grown = capacity c + n).
  { unfold grown. rewrite size_app, size_zeroed by lia. lia. }
  set (st' := take (Z.to_nat off) grown ++ slice src 0 len
                ++ drop (Z.to_nat (off + len)) grown).
  assert (Hst' : size st' = capacity c + n).
  { unfold st'. rewrite !size_app, size_slice, size_take, size_drop by lia.
    lia. }
  assert (Hwf' : wf_cell (set_capacity (capacity c + n) (set_storage st' c))).
  { destruct c as [st cap rc lk al rel]. unfold wf_cell, sized, is_size_t.
    simpl in *. repeat split; try assumption; lia. }
  exists (set_capacity (capacity c + n) (set_storage st' c)).
  split; [apply write_at_growing; assumption|].
  split; [destruct c; reflexivity|]. split; [exact Hwf'|]. split.
  - intros dst Hd.
    rewrite read_at_in_range;
      try assumption; try (destruct c; simpl in *; lia).
    do 2 f_equal. destruct c as [st cap rc lk al rel]. simpl in *.
    f_equal. apply slice_stored; lia.
  - intros dst len2 off2 Ho2 Hl2 Hr2 Hbefore Hd.
    rewrite read_at_in_range;
      try assumption; try (destruct c; simpl in *; lia).
    do 2 f_equal. destruct c as [st cap rc lk al rel]. simpl in *.
    f_equal. transitivity (slice grown off2 len2).
    + apply slice_ext; try assumption.
      intros i Hi. apply stored_lookup_outside; try lia.
      apply size_slice; lia.
    + apply slice_app_l; lia.
Qed.

Lemma growing_write_keeps_old_bytes_witness :
  exists c',
    mem_buffer.write_at (mem_buffer.set_auto_expand_size 8 mem_buffer.initial)
      [x61; x62; x63; x64] 4 10 counting_cell = Ret true c' /\
    capacity c' = 16 /\
    wf_cell c' /\
    (forall dst, 4 <= size dst ->
       mem_buffer.read_at mem_buffer.initial dst 4 10 c'
       = Ret (true, [x61; x62; x63; x64] ++ drop 4 dst) c') /\
    (forall dst len2 off2,
       0 <= off2 -> 0 <= len2 -> off2 + len2 <= 8 ->
       off2 + len2 <= 10 -> len2 <= size dst ->
       mem_buffer.read_at mem_buffer.initial dst len2 off2 c'
       = Ret (true,
              slice [x01; x02; x03; x04; x05; x06; x07; x08] off2 len2
                ++ drop (Z.to_nat len2) dst) c').
Proof.
  apply (growing_write_keeps_old_bytes
           (mem_buffer.set_auto_expand_size 8 mem_buffer.initial)
           mem_buffer.initial counting_cell [x61; x62; x63; x64] 4 10).
  - by_computation.
  - by_computation.
  - by_computation.
  - eexists. reflexivity.
  - by_computation.
  - by_computation.
  - by_computation.
  - by_computation.
  - by_computation.
Defined.

(** ** What reading never does *)






(** ** Copies and the growth increment *)

(** X9.  A copy does not take over the growth increment of the handle it
    is made from: whatever [auto_expand_size(n)] set there, the copy has
    the position and the flags of the original and the default increment
    of 16 KiB, and a write through the copy that has to grow the buffer
    grows it by 16 KiB. *)
Theorem copy_drops_growth_increment {Al : Allocator}
    (h : mem_buffer.t) (n : Z) (c : cell) (src : block) (len off : Z) :
  wf_cell c -> ref_counter c < INT_MAX -> policies_on h ->
  is_Some (alloc (capacity c + 16 * 1024)) ->
  capacity c + 16 * 1024 < size_modulus ->
  0 <= off -> 0 <= len -> len <= size src ->
  capacity c < off + len <= capacity c + 16 * 1024 ->
  exists h' c1 c2,
    mem_buffer.copy (mem_buffer.set_auto_expand_size n h) c = Ret h' c1 /\
    mem_buffer.auto_expand_size h' = 16 * 1024 /\
    mem_buffer.position h' = mem_buffer.position h /\
    policies_on h' /\
    mem_buffer.write_at h' src len off c1 = Ret true c2 /\
    capacity c2 = capacity c + 16 * 1024.
Proof.
  intros Hwf Hrc Hp Hblock Hfit Ho Hl Hs Hr.
  exists (copy_of (mem_buffer.set_auto_expand_size n h)),
         (set_ref_counter (ref_counter c + 1) c).
  eexists.
  split; [apply copy_in_range; assumption|].
  split; [reflexivity|]. split; [reflexivity|]. split; [exact Hp|].
  split.
  - apply write_at_growing.
    + exact Hp.
    + apply wf_cell_set_ref_counter, Hwf.
    + simpl. lia.
    + destruct c; exact Hblock.
    + destruct c; exact Hfit.
    + exact Ho.
    + exact Hl.
    + exact Hs.
    + destruct c; exact Hr.
  - destruct c; reflexivity.
Qed.

Lemma copy_drops_growth_increment_witness :
  exists h' c1 c2,
    mem_buffer.copy (mem_buffer.set_auto_expand_size 4 mem_buffer.initial)
      (new_cell 8) = Ret h' c1 /\
    mem_buffer.auto_expand_size h' = 16 * 1024 /\
    mem_buffer.position h' = mem_buffer.position mem_buffer.initial /\
    policies_on h' /\
    mem_buffer.write_at h' [x61; x62] 2 8 c1 = Ret true c2 /\
    capacity c2 = capacity (new_cell 8) + 16 * 1024.
Proof.
  apply (copy_drops_growth_increment mem_buffer.initial 4 (new_cell 8)
           [x61; x62] 2 8).
  - by_computation.
  - by_computation.
  - by_computation.
  - eexists. reflexivity.
  - by_computation.
  - by_computation.
  - by_computation.
  - by_computation.
  - by_computation.
Defined.

(** ** Moving a view *)

Lemma wrap_sub_add p n : is_size_t p -> wrap (wrap (p + n) - n) = p.
Proof.
  intros Hp. unfold wrap. rewrite Zminus_mod_idemp_l.
  replace (p + n - n) with p by lia. apply Z.mod_small. exact Hp.
Qed.

(** X10.  Stepping a view forward by [len] elements and back by [len]
    elements returns it to its position, for every [len], also when the
    position wraps around on the way; the buffer is not touched, and a
    view whose end marker agreed with its position is exactly as it was. *)
Theorem forward_then_back (s : mem_stream.t) (len : Z) (c : cell) :
  is_size_t (mem_stream.pos s) ->
  exists s1 s2,
    mem_stream.forward_n s len c = Ret s1 c /\
    mem_stream.back_n s1 len c = Ret s2 c /\
    mem_stream.pos s2 = mem_stream.pos s /\
    (mem_stream.pos s < capacity c -> mem_stream.eof s2 = false) /\
    (eof_in_sync s c -> s2 = s).
Proof.
  intros Hp. unfold mem_stream.forward_n, mem_stream.back_n.
  rewrite forward_by_spec. eexists _, _. split; [reflexivity|].
  rewrite back_by_spec. split; [reflexivity|].
  destruct s as [p b e st]. unfold eof_in_sync. simpl in *.
  set (n := wrap (st * len)).
  assert (Hstep : forall e',
            mem_stream.step
              (if capacity c <=? wrap (p + n)
               then mem_stream.Stream (wrap (p + n)) b e' st
               else mem_stream.Stream (wrap (p + n)) b e st) = st)
    by (intros e'; destruct (capacity c <=? wrap (p + n)); reflexivity).
  assert (Hpos : forall e',
            mem_stream.pos
              (if capacity c <=? wrap (p + n)
               then mem_stream.Stream (wrap (p + n)) b e' st
               else mem_stream.Stream (wrap (p + n)) b e st) = wrap (p + n))
    by (intros e'; destruct (capacity c <=? wrap (p + n)); reflexivity).
  unfold mem_stream.set_eof_bit, mem_stream.set_pos. simpl.
  destruct (capacity c <=? wrap (p + n)) eqn:E1; simpl; fold n;
    rewrite (wrap_sub_add p n Hp);
    destruct (p <? capacity c) eqn:E2; simpl.
  - split; [reflexivity|]. split; [reflexivity|].
    intros ->. f_equal. symmetry. apply Z.leb_gt. apply Z.ltb_lt. exact E2.
  - split; [reflexivity|]. apply Z.ltb_ge in E2. split; [lia|].
    intros ->. f_equal. symmetry. apply Z.leb_le. exact E2.
  - split; [reflexivity|]. split; [reflexivity|].
    intros ->. f_equal. symmetry. apply Z.leb_gt. apply Z.ltb_lt. exact E2.
  - split; [reflexivity|]. apply Z.ltb_ge in E2. split; [lia|].
    intros ->. reflexivity.
Qed.

Lemma forward_then_back_witness :
  exists s1 s2,
    mem_stream.forward_n (mem_stream.Stream 2 mem_buffer.initial false 2) 5
      (new_cell 8) = Ret s1 (new_cell 8) /\
    mem_stream.back_n s1 5 (new_cell 8) = Ret s2 (new_cell 8) /\
    mem_stream.pos s2 = 2 /\
    (2 < capacity (new_cell 8) -> mem_stream.eof s2 = false) /\
    (eof_in_sync (mem_stream.Stream 2 mem_buffer.initial false 2) (new_cell 8) ->
     s2 = mem_stream.Stream 2 mem_buffer.initial false 2).
Proof.
  apply (forward_then_back (mem_stream.Stream 2 mem_buffer.initial false 2) 5
           (new_cell 8)).
  by_computation.
Defined.

(** X11.  [peek(len)] on an element that lies within the capacity delivers
    that element, the one [len - 1] elements ahead of the cursor, and
    leaves the position where it was; the end marker is clear afterwards,
    whatever it was before. *)
Theorem peek_n_in_range (s : mem_stream.t) (len : Z) (v0 : block) (c : cell) :
  wf_cell c -> 0 <= mem_stream.pos s -> 0 < mem_stream.step s -> 1 <= len ->
  mem_stream.pos s + mem_stream.step s * len <= capacity c ->
  mem_stream.step s <= size v0 ->
  mem_stream.peek_n s len v0 c
  = Ret (slice (storage c)
           (mem_stream.pos s + mem_stream.step s * (len - 1))
           (mem_stream.step s)
           ++ drop (Z.to_nat (mem_stream.step s)) v0,
         mem_stream.set_eof_bit false s) c.
Proof.
  intros Hwf Hp Hst Hlen Hr Hv.
  assert (Hcap : is_size_t (capacity c)) by apply Hwf.
  unfold is_size_t in Hcap.
  destruct s as [p b e st]. simpl in *.
  assert (H1 : 0 <= st * (len - 1)) by nia.
  assert (H2 : st * len = st * (len - 1) + st) by lia.
  assert (Hlen2 : len <= capacity c) by nia.
  unfold mem_stream.peek_n, mem_stream.forward_n, mem_stream.back_n.
  unfold bind at 1. rewrite forward_by_spec. cbv zeta. simpl.
  rewrite (wrap_small (len - 1)) by (unfold is_size_t; lia).
  rewrite (wrap_small (st * (len - 1))) by (unfold is_size_t; lia).
  rewrite (wrap_small (p + _)) by (unfold is_size_t; lia).
  replace (capacity c <=? p + st * (len - 1)) with false
    by (symmetry; apply Z.leb_gt; lia).
  unfold bind at 1, mem_stream.get_value. unfold bind at 1.
  rewrite get_in_range; simpl; try assumption; try lia.
  unfold ret at 1. unfold bind. rewrite back_by_spec. unfold ret. cbv zeta.
  simpl.
  destruct (capacity c <=? p + st * (len - 1) + st); simpl;
    rewrite (wrap_small (st * len)) by (unfold is_size_t; lia);
    replace (p + st * (len - 1) + st - st * len) with p by lia;
    rewrite (wrap_small p) by (unfold is_size_t; lia);
    replace (p <? capacity c) with true by (symmetry; apply Z.ltb_lt; nia);
    reflexivity.
Qed.

Lemma peek_n_in_range_witness :
  mem_stream.peek_n (mem_stream.Stream 2 mem_buffer.initial true 2) 3
    [x00; x00] counting_cell
  = Ret ([x07; x08], mem_stream.Stream 2 mem_buffer.initial false 2)
        counting_cell.
Proof.
  apply (peek_n_in_range (mem_stream.Stream 2 mem_buffer.initial true 2) 3
           [x00; x00] counting_cell).
  - by_computation.
  - by_computation.
  - by_computation.
  - by_computation.
  - by_computation.
  - by_computation.
Defined.

(** X12.  [peek(len)] on an element that ends beyond the capacity reads
    nothing: it hands back the bytes it was given, and since the rejected
    [get] did not advance while [back(len)] still ran, the view ends one
    element before the position it had. *)
Theorem peek_n_past_end (s : mem_stream.t) (len : Z) (v0 : block) (c : cell) :
  0 <= mem_stream.pos s -> 0 < mem_stream.step s -> 1 <= len ->
  capacity c < mem_stream.pos s + mem_stream.step s * len ->
  mem_stream.pos s + mem_stream.step s * len < size_modulus ->
  mem_stream.step s <= mem_stream.pos s ->
  exists s',
    mem_stream.peek_n s len v0 c = Ret (v0, s') c /\
    mem_stream.pos s' = mem_stream.pos s - mem_stream.step s.
Proof.
  intros Hp Hst Hlen Hr Hfit Hback.
  destruct s as [p b e st]. simpl in *.
  assert (H1 : 0 <= st * (len - 1)) by nia.
  assert (Hlen2 : len < size_modulus) by nia.
  unfold mem_stream.peek_n, mem_stream.forward_n, mem_stream.back_n.
  unfold bind at 1. rewrite forward_by_spec. cbv zeta. simpl.
  rewrite (wrap_small (len - 1)) by (unfold is_size_t; lia).
  rewrite (wrap_small (st * (len - 1))) by (unfold is_size_t; lia).
  rewrite (wrap_small (p + _)) by (unfold is_size_t; lia).
  unfold bind at 1, mem_stream.get_value. unfold bind at 1.
  destruct (capacity c <=? p + st * (len - 1)) eqn:E1;
    (rewrite get_rejected by (simpl; lia));
    unfold ret at 1; unfold bind; rewrite back_by_spec; unfold ret;
    cbv zeta; simpl; rewrite ?E1; simpl;
    rewrite (wrap_small (st * len)) by (unfold is_size_t; nia);
    replace (p + st * (len - 1) - st * len) with (p - st) by lia;
    rewrite (wrap_small (p - st)) by (unfold is_size_t; lia);
    (eexists; split; [reflexivity|]);
    destruct (p - st <? capacity c); reflexivity.
Qed.

Lemma peek_n_past_end_witness :
  exists s',
    mem_stream.peek_n (mem_stream.Stream 4 mem_buffer.initial false 2) 3
      [x00; x00] counting_cell = Ret ([x00; x00], s') counting_cell /\
    mem_stream.pos s' = 4 - 2.
Proof.
  apply (peek_n_past_end (mem_stream.Stream 4 mem_buffer.initial false 2) 3
           [x00; x00] counting_cell).
  - by_computation.
  - by_computation.
  - by_computation.
  - by_computation.
  - by_computation.
  - by_computation.
Defined.

(** X13.  The look-ahead [eof(sizeof(T))] is on the safe side of [get]:
    it is false exactly when the next element ends strictly before the
    capacity, and [get] returns true exactly when it ends at or before the
    capacity; so a false look-ahead promises a successful [get], while at
    the last element the look-ahead is already true and [get] still
    succeeds. *)
Theorem eof_ahead_is_conservative (s : mem_stream.t) (v : block) (c : cell) :
  wf_cell c -> 0 <= mem_stream.pos s -> 0 <= mem_stream.step s ->
  mem_stream.step s <= size v ->
  mem_stream.pos s + mem_stream.step s < size_modulus ->
  exists b r v' s',
    mem_stream.eof_ahead s (mem_stream.step s) c = Ret b c /\
    mem_stream.get s v c = Ret (r, v', s') c /\
    (b = false <-> mem_stream.pos s + mem_stream.step s < capacity c) /\
    (r = true <-> mem_stream.pos s + mem_stream.step s <= capacity c) /\
    (b = false -> r = true) /\
    (mem_stream.pos s + mem_stream.step s = capacity c ->
     b = true /\ r = true).
Proof.
  intros Hwf Hp Hst Hv Hfit.
  exists (capacity c <=? mem_stream.pos s + mem_stream.step s),
         (mem_stream.pos s + mem_stream.step s <=? capacity c).
  assert (Hget : exists v' s',
             mem_stream.get s v c
             = Ret (mem_stream.pos s + mem_stream.step s <=? capacity c,
                    v', s') c).
  { destruct (Z.leb_spec (mem_stream.pos s + mem_stream.step s) (capacity c)).
    - eexists _, _. apply get_in_range; assumption.
    - eexists _, _. apply get_rejected; assumption. }
  destruct Hget as (v' & s' & Hget). exists v', s'.
  split.
  { unfold mem_stream.eof_ahead, bind, get_cell, ret.
    rewrite wrap_small by (unfold is_size_t; lia). reflexivity. }
  split; [exact Hget|].
  rewrite Z.leb_gt, Z.leb_le.
  split; [reflexivity|]. split; [reflexivity|].
  split.
  - intros Hb. apply Z.leb_gt in Hb. apply Z.leb_le. lia.
  - intros E. split; [apply Z.leb_le|apply Z.leb_le]; lia.
Qed.

Lemma eof_ahead_is_conservative_witness :
  exists b r v' s',
    mem_stream.eof_ahead (mem_stream.Stream 6 mem_buffer.initial false 2) 2
      counting_cell = Ret b counting_cell /\
    mem_stream.get (mem_stream.Stream 6 mem_buffer.initial false 2)
      [x00; x00] counting_cell = Ret (r, v', s') counting_cell /\
    (b = false <-> 6 + 2 < capacity counting_cell) /\
    (r = true <-> 6 + 2 <= capacity counting_cell) /\
    (b = false -> r = true) /\
    (6 + 2 = capacity counting_cell -> b = true /\ r = true).
Proof.
  apply (eof_ahead_is_conservative
           (mem_stream.Stream 6 mem_buffer.initial false 2) [x00; x00]
           counting_cell).
  - by_computation.
  - by_computation.
  - by_computation.
  - by_computation.
  - by_computation.
Defined.

(** ** Values through a view *)

(** X14.  An element put through a view is the element got back from the
    same place: within the capacity [put] returns true and advances by one
    element, [back()] returns to the position, and [get] then returns true,
    delivers the element and advances by one element again. *)
Theorem put_back_get {Al : Allocator}
    (s : mem_stream.t) (v v0 : block) (c : cell) :
  wf_cell c -> 0 <= mem_stream.pos s -> 0 < mem_stream.step s ->
  size v = mem_stream.step s -> size v0 = mem_stream.step s ->
  mem_stream.pos s + mem_stream.step s <= capacity c ->
  exists s1 c1 s2 s3,
    mem_stream.put s v c = Ret (true, s1) c1 /\
    mem_stream.pos s1 = mem_stream.pos s + mem_stream.step s /\
    mem_stream.back s1 c1 = Ret s2 c1 /\
    mem_stream.pos s2 = mem_stream.pos s /\
    mem_stream.get s2 v0 c1 = Ret (true, v, s3) c1 /\
    mem_stream.pos s3 = mem_stream.pos s + mem_stream.step s.
Proof.
  intros Hwf Hp Hst Hv Hv0 Hr.
  assert (Hsz : size (storage c) = capacity c) by apply Hwf.
  assert (Hcap : is_size_t (capacity c)) by apply Hwf.
  unfold is_size_t in Hcap.
  destruct s as [p b e st]. simpl in *.
  set (st1 := take (Z.to_nat p) (storage c) ++ slice v 0 st
                ++ drop (Z.to_nat (p + st)) (storage c)).
  assert (Hwf1 : wf_cell (set_storage st1 c)).
  { eapply wf_cell_after_store; try reflexivity; try assumption.
    - apply size_slice; lia.
    - lia. }
  exists (mem_stream.Stream (p + st) b e st), (set_storage st1 c),
         (mem_stream.Stream p b false st),
         (if capacity c <=? p + st
          then mem_stream.Stream (p + st) b true st
          else mem_stream.Stream (p + st) b false st).
  split.
  { rewrite (put_follows_write _ v c true (set_storage st1 c)).
    - simpl. rewrite wrap_small by (unfold is_size_t; lia). reflexivity.
    - simpl. apply write_at_in_range; try assumption; lia. }
  split; [reflexivity|].
  unfold mem_stream.back. rewrite back_by_spec. cbv zeta. simpl.
  replace (p + st - st) with p by lia.
  rewrite (wrap_small p) by (unfold is_size_t; lia).
  replace (p <? capacity c) with true by (symmetry; apply Z.ltb_lt; lia).
  split; [reflexivity|]. split; [reflexivity|].
  split.
  - rewrite get_in_range; simpl;
      try assumption; try (destruct c; simpl in *; lia).
    destruct c as [stc cap rc lk al rel]. simpl in *. unfold st1.
    rewrite slice_stored by lia.
    rewrite slice_whole by lia.
    rewrite drop_ge by (unfold size in *; lia). rewrite app_nil_r.
    destruct (cap <=? p + st); reflexivity.
  - destruct (capacity c <=? p + st); reflexivity.
Qed.

Lemma put_back_get_witness :
  exists s1 c1 s2 s3,
    mem_stream.put (mem_stream.Stream 4 mem_buffer.initial false 2)
      [xbe; xef] (new_cell 8) = Ret (true, s1) c1 /\
    mem_stream.pos s1 = 4 + 2 /\
    mem_stream.back s1 c1 = Ret s2 c1 /\
    mem_stream.pos s2 = 4 /\
    mem_stream.get s2 [x00; x00] c1 = Ret (true, [xbe; xef], s3) c1 /\
    mem_stream.pos s3 = 4 + 2.
Proof.
  apply (put_back_get (mem_stream.Stream 4 mem_buffer.initial false 2)
           [xbe; xef] [x00; x00] (new_cell 8)).
  - by_computation.
  - by_computation.
  - by_computation.
  - reflexivity.
  - reflexivity.
  - by_computation.
Defined.

Lemma operator_put_all_in_range {Al : Allocator} vs :
  forall s c,
    wf_cell c -> 0 <= mem_stream.pos s -> 0 <= mem_stream.step s ->
    Forall (fun v => size v = mem_stream.step s) vs ->
    mem_stream.pos s + mem_stream.step s * Z.of_nat (length vs) <= capacity c ->
    exists c',
      operator_put_all s vs c
      = Ret (mem_stream.set_pos
               (mem_stream.pos s + mem_stream.step s * Z.of_nat (length vs)) s)
            c' /\
      wf_cell c' /\ capacity c' = capacity c /\
      slice (storage c') (mem_stream.pos s)
        (mem_stream.step s * Z.of_nat (length vs)) = concat vs /\
      forall i,
        (i < Z.to_nat (mem_stream.pos s) \/
         Z.to_nat (mem_stream.pos s
                   + mem_stream.step s * Z.of_nat (length vs)) <= i)%nat ->
        storage c' !! i = storage c !! i.
Proof.
  induction vs as [|v vs IH]; intros s c Hwf Hp Hst Hall Hr.
  - exists c. cbn [operator_put_all length concat]. unfold ret.
    split; [simpl; rewrite Z.mul_0_r, Z.add_0_r; destruct s; reflexivity|].
    split; [exact Hwf|]. split; [reflexivity|].
    split; [|reflexivity].
    simpl. unfold slice. rewrite Z.mul_0_r. reflexivity.
  - apply Forall_cons in Hall as [Hv Hall].
    assert (Hsz : size (storage c) = capacity c) by apply Hwf.
    assert (Hcap : is_size_t (capacity c)) by apply Hwf.
    unfold is_size_t in Hcap.
    destruct s as [p b e st]. cbn [length] in Hr. simpl in *.
    assert (Hn : 0 <= st * Z.of_nat (length vs)) by nia.
    assert (Hr' : p + st + st * Z.of_nat (length vs) <= capacity c) by lia.
    set (st1 := take (Z.to_nat p) (storage c) ++ slice v 0 st
                  ++ drop (Z.to_nat (p + st)) (storage c)).
    assert (Hwf1 : wf_cell (set_storage st1 c)).
    { eapply wf_cell_after_store; try reflexivity; try assumption.
      - apply size_slice; lia.
      - lia. }
    destruct (IH (mem_stream.Stream (p + st) b e st) (set_storage st1 c)
                Hwf1 ltac:(simpl; lia) Hst Hall
                ltac:(destruct c; simpl in *; lia))
      as (c' & Hrun & Hwf' & Hcap' & Hslice & Hframe).
    exists c'. simpl in *. cbn [operator_put_all].
    unfold bind at 1, operator_put. unfold bind at 1.
    rewrite (put_follows_write _ v c true (set_storage st1 c))
      by (simpl; apply write_at_in_range; try assumption; lia).
    unfold ret at 1. simpl.
    rewrite wrap_small by (unfold is_size_t; lia).
    split.
    { unfold mem_stream.set_pos in *. simpl in *. rewrite Hrun.
      replace (p + st + st * Z.of_nat (length vs))
        with (p + st * Z.pos (Pos.of_succ_nat (length vs))) by lia.
      reflexivity. }
    split; [exact Hwf'|].
    split; [rewrite Hcap'; destruct c; reflexivity|].
    split.
    + replace (st * Z.of_nat (S (length vs)))
        with (st + st * Z.of_nat (length vs)) by lia.
      rewrite slice_app_split by lia. f_equal; [|exact Hslice].
      transitivity (slice st1 p st).
      * apply slice_ext; try lia. intros i Hi.
        rewrite Hframe by lia. destruct c; reflexivity.
      * unfold st1. rewrite slice_stored by lia. apply slice_whole. lia.
    + intros i Hi. rewrite Hframe by lia.
      destruct c as [stc cap rc lk al rel]. simpl in *. unfold st1.
      apply stored_lookup_outside; try lia.
      apply size_slice; lia.
Qed.

(** X15.  A chain [s << v1 << ... << vn] of elements that fits within the
    capacity stores the elements one after the other from the position of
    the view on, advances the position by [n] elements, leaves the end
    marker and the capacity as they were, and leaves every byte before and
    after the stored range as it was. *)
Theorem operator_put_chain {Al : Allocator}
    (s : mem_stream.t) (vs : list block) (c : cell) :
  wf_cell c -> 0 <= mem_stream.pos s -> 0 <= mem_stream.step s ->
  Forall (fun v => size v = mem_stream.step s) vs ->
  mem_stream.pos s + mem_stream.step s * Z.of_nat (length vs) <= capacity c ->
  exists s' c',
    operator_put_all s vs c = Ret s' c' /\
    mem_stream.pos s'
    = mem_stream.pos s + mem_stream.step s * Z.of_nat (length vs) /\
    mem_stream.eof s' = mem_stream.eof s /\
    capacity c' = capacity c /\
    slice (storage c') (mem_stream.pos s)
      (mem_stream.step s * Z.of_nat (length vs)) = concat vs /\
    forall i,
      (i < Z.to_nat (mem_stream.pos s) \/
       Z.to_nat (mem_stream.pos s
                 + mem_stream.step s * Z.of_nat (length vs)) <= i)%nat ->
      storage c' !! i = storage c !! i.
Proof.
  intros Hwf Hp Hst Hall Hr.
  destruct (operator_put_all_in_range vs s c Hwf Hp Hst Hall Hr)
    as (c' & Hrun & _ & Hcap & Hslice & Hframe).
  eexists _, c'. split; [exact Hrun|].
  split; [reflexivity|]. split; [reflexivity|].
  split; [exact Hcap|]. split; [exact Hslice|exact Hframe].
Qed.

Lemma operator_put_chain_witness :
  exists s' c',
    operator_put_all (mem_stream.Stream 2 mem_buffer.initial false 2)
      [[x61; x62]; [x63; x64]; [x65; x66]] counting_cell = Ret s' c' /\
    mem_stream.pos s' = 2 + 2 * 3 /\
    mem_stream.eof s' = false /\
    capacity c' = 8 /\
    slice (storage c') 2 (2 * 3) = [x61; x62; x63; x64; x65; x66] /\
    forall i,
      (i < Z.to_nat 2 \/ Z.to_nat (2 + 2 * 3) <= i)%nat ->
      storage c' !! i = storage counting_cell !! i.
Proof.
  apply (operator_put_chain (mem_stream.Stream 2 mem_buffer.initial false 2)
           [[x61; x62]; [x63; x64]; [x65; x66]] counting_cell).
  - by_computation.
  - by_computation.
  - by_computation.
  - repeat constructor.
  - by_computation.
Defined.

(** X16.  At the end of the data the value-returning getters hand back
    the bytes of their uninitialised local: when the element ends beyond
    the capacity, [T get()] of a view returns those bytes and leaves the
    position where it was, setting the end marker if the position has
    reached the capacity, and [Rt read()] of a handle returns those bytes
    and still advances the position by [sizeof(Rt)]; neither touches the
    buffer. *)
Theorem getters_at_end_return_local
    (s : mem_stream.t) (h : mem_buffer.t) (v0 : block) (c : cell) :
  (0 <= mem_stream.pos s -> 0 <= mem_stream.step s ->
   mem_stream.pos s + mem_stream.step s < size_modulus ->
   capacity c < mem_stream.pos s + mem_stream.step s ->
   mem_stream.get_value s v0 c
   = Ret (v0, if capacity c <=? mem_stream.pos s
              then mem_stream.set_eof_bit true s else s) c) /\
  (0 <= mem_buffer.pos h ->
   mem_buffer.pos h + size v0 < size_modulus ->
   capacity c < mem_buffer.pos h + size v0 ->
   mem_buffer.read_return h v0 c
   = Ret (v0, mem_buffer.set_pos (mem_buffer.pos h + size v0) h) c).
Proof.
  split.
  - intros Hp Hst Hfit Hr. unfold mem_stream.get_value, bind.
    rewrite get_rejected by assumption. reflexivity.
  - intros Hp Hfit Hr. pose proof (size_nonneg v0).
    unfold mem_buffer.read_return, mem_buffer.read_value, mem_buffer.read.
    unfold bind at 1. unfold bind at 1.
    rewrite read_at_past_capacity by (try assumption; lia).
    unfold ret. simpl.
    rewrite wrap_small by (unfold is_size_t; lia). reflexivity.
Qed.

Lemma getters_at_end_return_local_witness :
  mem_stream.get_value (mem_stream.Stream 8 mem_buffer.initial false 1)
    [xcc] counting_cell
  = Ret ([xcc], mem_stream.Stream 8 mem_buffer.initial true 1) counting_cell /\
  mem_buffer.read_return (mem_buffer.set_position 6 mem_buffer.initial)
    [xcc; xcc; xcc; xcc] counting_cell
  = Ret ([xcc; xcc; xcc; xcc], mem_buffer.set_position 10 mem_buffer.initial)
        counting_cell.
Proof.
  destruct (getters_at_end_return_local
              (mem_stream.Stream 8 mem_buffer.initial false 1)
              (mem_buffer.set_position 6 mem_buffer.initial)
              [xcc] counting_cell) as (Hget & _).
  destruct (getters_at_end_return_local
              (mem_stream.Stream 8 mem_buffer.initial false 1)
              (mem_buffer.set_position 6 mem_buffer.initial)
              [xcc; xcc; xcc; xcc] counting_cell) as (_ & Hread).
  split.
  - apply Hget; by_computation.
  - apply Hread; by_computation.
Defined.

(** ** Independent handles *)




(** X18.  A copy or a view that is made and destroyed again leaves the
    buffer exactly as it was: on a live buffer with at least one handle
    and a counter below [INT_MAX], the copy constructor and the
    construction of a view raise the counter by one, and the destructor of
    that copy, or of the handle inside the view, takes it back without
    releasing anything. *)
Theorem copy_then_destroy_restores (h : mem_buffer.t) (sz : Z) (c : cell) :
  wf_cell c -> 1 <= ref_counter c < INT_MAX ->
  (exists h' c1,
     mem_buffer.copy h c = Ret h' c1 /\
     ref_counter c1 = ref_counter c + 1 /\
     mem_buffer.destroy h' c1 = Ret tt c) /\
  (exists s c1,
     mem_stream.construct sz h c = Ret s c1 /\
     ref_counter c1 = ref_counter c + 1 /\
     mem_buffer.destroy (mem_stream.buffer s) c1 = Ret tt c).
Proof.
  intros Hwf Hrc.
  assert (Hd : forall g,
            mem_buffer.destroy g (set_ref_counter (ref_counter c + 1) c)
            = Ret tt c).
  { intros g. rewrite destroy_in_range.
    - destruct c as [st cap rc lk al rel]. simpl in *.
      replace (rc + 1 =? 1) with false by (symmetry; apply Z.eqb_neq; lia).
      simpl. unfold set_ref_counter. simpl. do 2 f_equal. lia.
    - apply wf_cell_set_ref_counter, Hwf.
    - destruct c; simpl in *. unfold INT_MIN. lia. }
  split.
  - eexists _, _. split; [apply copy_in_range; [exact Hwf|lia]|].
    split; [destruct c; reflexivity|]. apply Hd.
  - eexists _, _. split; [apply construct_stream; [exact Hwf|lia]|].
    split; [destruct c; reflexivity|]. apply Hd.
Qed.

Lemma copy_then_destroy_restores_witness :
  exists s c1,
    get_char16_stream mem_buffer.initial counting_cell = Ret s c1 /\
    ref_counter c1 = ref_counter counting_cell + 1 /\
    mem_buffer.destroy (mem_stream.buffer s) c1 = Ret tt counting_cell.
Proof.
  apply (proj2 (copy_then_destroy_restores mem_buffer.initial 2 counting_cell
                  ltac:(by_computation) ltac:(by_computation))).
Defined.

(** ** Edges of the cursor of a view *)

(** X19.  Stepping back before the start is not caught: [back()] at a
    position below one element wraps the position around to
    [2^64 - step + pos] and leaves the end marker as it was; the [get]
    that follows passes the bounds test, because [step + pos] wraps again,
    and copies from outside the block. *)
Theorem back_before_start_then_get (s : mem_stream.t) (v : block) (c : cell) :
  wf_cell c -> 0 < mem_stream.step s ->
  capacity c + mem_stream.step s <= size_modulus ->
  0 <= mem_stream.pos s < mem_stream.step s ->
  mem_stream.pos s <= capacity c ->
  exists s1,
    mem_stream.back s c = Ret s1 c /\
    mem_stream.pos s1 = size_modulus - mem_stream.step s + mem_stream.pos s /\
    mem_stream.eof s1 = mem_stream.eof s /\
    mem_stream.get s1 v c = Undefined.
Proof.
  intros Hwf Hst Hst2 Hp Hle.
  assert (Hcap : is_size_t (capacity c)) by apply Hwf.
  unfold is_size_t in Hcap.
  destruct s as [p b e st]. simpl in *.
  assert (Hw : wrap (p - st) = size_modulus - st + p).
  { unfold wrap. replace (p - st) with (size_modulus - st + p + (-1) * size_modulus)
      by lia.
    rewrite Z.mod_add by (unfold size_modulus; lia).
    apply Z.mod_small. lia. }
  unfold mem_stream.back. rewrite back_by_spec. cbv zeta. simpl.
  rewrite Hw.
  replace (size_modulus - st + p <? capacity c) with false
    by (symmetry; apply Z.ltb_ge; lia).
  eexists. split; [reflexivity|]. split; [reflexivity|].
  split; [reflexivity|].
  unfold mem_stream.get, bind. simpl.
  rewrite read_at_wrapped; [reflexivity|exact Hwf|lia|].
  replace (st + (size_modulus - st + p)) with (p + 1 * size_modulus) by lia.
  unfold wrap. rewrite Z.mod_add by (unfold size_modulus; lia).
  rewrite Z.mod_small by lia. lia.
Qed.

Lemma back_before_start_then_get_witness :
  exists s1,
    mem_stream.back (mem_stream.Stream 0 mem_buffer.initial false 2)
      counting_cell = Ret s1 counting_cell /\
    mem_stream.pos s1 = size_modulus - 2 + 0 /\
    mem_stream.eof s1 = false /\
    mem_stream.get s1 [x00; x00] counting_cell = Undefined.
Proof.
  apply (back_before_start_then_get
           (mem_stream.Stream 0 mem_buffer.initial false 2) [x00; x00]
           counting_cell).
  - by_computation.
  - by_computation.
  - by_computation.
  - by_computation.
  - by_computation.
Defined.

(** X20.  [peek()] on a view of one-byte elements delivers the byte under
    the cursor and leaves the position where it was; but when that byte is
    the last one of the buffer the end marker is set by the call, although
    nothing was consumed, and before the last byte the end marker is left
    as it was. *)
Theorem peek_byte_end_marker (s : mem_stream.t) (v0 : block) (c : cell) :
  wf_cell c -> mem_stream.step s = 1 ->
  0 <= mem_stream.pos s -> mem_stream.pos s + 1 <= capacity c ->
  1 <= size v0 ->
  exists s',
    mem_stream.peek s v0 c
    = Ret (slice (storage c) (mem_stream.pos s) 1 ++ drop 1 v0, s') c /\
    mem_stream.pos s' = mem_stream.pos s /\
    (mem_stream.pos s + 1 = capacity c -> mem_stream.eof s' = true) /\
    (mem_stream.pos s + 1 < capacity c ->
     mem_stream.eof s' = mem_stream.eof s).
Proof.
  intros Hwf Hst Hp Hr Hv.
  assert (Hcap : is_size_t (capacity c)) by apply Hwf.
  unfold is_size_t in Hcap.
  destruct s as [p b e st]. simpl in *. subst st.
  unfold mem_stream.peek, mem_stream.get_value, bind at 1. unfold bind at 1.
  rewrite get_in_range; simpl; try assumption; try lia.
  unfold ret.
  destruct (Z.leb_spec (capacity c) (p + 1)) as [Hlast|Hmore]; simpl;
    replace (p + 1 - 1) with p by lia;
    rewrite (wrap_small p) by (unfold is_size_t; lia);
    (eexists; split; [reflexivity|]); simpl;
    (split; [reflexivity|]); split; intros; try reflexivity; lia.
Qed.

Lemma peek_byte_end_marker_witness :
  exists s',
    mem_stream.peek (mem_stream.Stream 7 mem_buffer.initial false 1) [x00]
      counting_cell
    = Ret (slice (storage counting_cell) 7 1 ++ drop 1 [x00], s')
          counting_cell /\
    mem_stream.pos s' = 7 /\
    (7 + 1 = capacity counting_cell -> mem_stream.eof s' = true) /\
    (7 + 1 < capacity counting_cell -> mem_stream.eof s' = false).
Proof.
  apply (peek_byte_end_marker
           (mem_stream.Stream 7 mem_buffer.initial false 1) [x00]
           counting_cell).
  - by_computation.
  - reflexivity.
  - by_computation.
  - by_computation.
  - by_computation.
Defined.
